(** * Trussness of the edges of a graph (src/centrality/truss.cpp)

    A shallow embedding of [igraph_trussness] and of its three static
    helpers, [igraph_truss_i_unpack], [igraph_truss_i_compute_support] and
    [igraph_i_trussness], followed by the properties the design document
    states about them.

    Conventions.
    - Vertex ids, edge ids, supports and levels are [nat].  In the source
      they are [igraph_integer_t], [long int] and [int]; every value is an
      index into a vector or a count of triangles, the only arithmetic is
      [+= 1], [-= 1] (guarded by [> level], with [level >= 1]) and
      [level + 2], so no operation wraps or truncates on inputs that fit
      in memory.
    - An [igraph_vector_*_t] or a [std::vector] is a [list]; [v !!! i] reads
      a slot and [<[i:=x]> v] or [alter f i v] stores into it.  The source
      does not check indices ([VECTOR(v)[i]], [operator[]]); [peel_access_in_range]
      shows that every index the peeler uses is in range.
    - A [std::unordered_set<long int>] is a [gset nat].  The element that
      [begin()] designates is not fixed by the language; it is supplied by
      a [tie_break]. *)

From stdpp Require Import gmap list sorting.

(** ** The graph and the services of the library the code calls *)

(** The graph is its edge list: edge [e] joins the two vertices at
    position [e]. *)
Abbreviation igraph_t := (list (nat * nat)).

(** Modelled from the spec: [igraph_ecount] is the design document's
    [edge_count(graph)]. *)
Definition igraph_ecount (g : igraph_t) : nat := length g.

(** Modelled from the spec: [igraph_edge(graph, eid, &from, &to)] is the
    design document's [edge_endpoints(graph, edge_id)]. *)
Definition igraph_edge (g : igraph_t) (eid : nat) : nat * nat := g !!! eid.

Definition joins (a b : nat) (e : nat * nat) : Prop := e = (a, b) ∨ e = (b, a).

#[global] Instance joins_dec a b e : Decision (joins a b e).
Proof. unfold joins. apply _. Defined.

(** Modelled from the spec: [igraph_get_eid] is not part of the sources at
    hand.  The design document describes it as [resolve_edge(graph, a, b)]:
    the id of an undirected edge between [a] and [b], the first match when
    there are several, and a failure when there is none. *)
Definition igraph_get_eid (g : igraph_t) (a b : nat) : option nat :=
  fst <$> list_find (joins a b) g.

(** Modelled from the spec: [igraph_get_eids] with [pairs] given, no path,
    undirected, [error = 1]: the vector of vertex ids is read two by two
    and every pair is resolved; one unresolved pair fails the call. *)
Fixpoint igraph_get_eids (g : igraph_t) (pairs : list nat) : option (list nat) :=
  match pairs with
  | [] => Some []
  | a :: b :: rest =>
      e ← igraph_get_eid g a b;
      es ← igraph_get_eids g rest;
      Some (e :: es)
  | [_] => None
  end.

(** Insertion into an ascending list without repetition. *)
Fixpoint sorted_insert (x : nat) (l : list nat) : list nat :=
  match l with
  | [] => [x]
  | y :: l' =>
      if decide (x < y) then x :: l
      else if decide (x = y) then l
      else y :: sorted_insert x l'
  end.

(** The vertex at the other end of [e] seen from [v]; a loop has none
    ([IGRAPH_NO_LOOPS]). *)
Definition other_end (v : nat) (e : nat * nat) : option nat :=
  if decide (e.1 = v ∧ e.2 ≠ v) then Some e.2
  else if decide (e.2 = v ∧ e.1 ≠ v) then Some e.1
  else None.

(** Modelled from the spec: [igraph_adjlist_init] followed by
    [igraph_adjlist_sort] are not part of the sources at hand.  The design
    document describes the result as [sorted_neighbors(graph, vertex)]: the
    neighbours of the vertex in ascending order, deduplicated, without
    self-loops.  The call passes [IGRAPH_ALL], [IGRAPH_NO_LOOPS] and
    [IGRAPH_MULTIPLE]; what the flags select is not in the sources at hand
    either.  [igraph_adjlist_get(&adjlist, v)] is [igraph_adjlist g v]. *)
Definition igraph_adjlist (g : igraph_t) (v : nat) : list nat :=
  foldr sorted_insert [] (omap (other_end v) g).

(** Modelled from the spec: [igraph_vector_int_intersect_sorted] is not part
    of the sources at hand; the design document asks for the standard
    intersection of two sorted lists by merging. *)
Fixpoint igraph_vector_int_intersect_sorted (l1 : list nat) : list nat → list nat :=
  fix inner (l2 : list nat) : list nat :=
    match l1, l2 with
    | a :: l1', b :: l2' =>
        if decide (a < b) then igraph_vector_int_intersect_sorted l1' l2
        else if decide (b < a) then inner l2'
        else a :: igraph_vector_int_intersect_sorted l1' l2'
    | _, _ => []
    end.

(** Modelled from the spec: [igraph_vector_int_max], the [max(support)] of
    the second step of the peeler. *)
Definition igraph_vector_int_max (v : list nat) : nat := max_list v.

(** Modelled from the spec: [igraph_vector_int_resize] is not part of the
    sources at hand; the design document has the result hold one slot per
    edge.  The first [n] slots are kept.  Slots added by the call hold
    indeterminate values in C; they are [0] here, and [igraph_i_trussness]
    stores into every slot before it returns ([peel_result_unique]: what
    it returns does not depend on the vector it is given). *)
Definition igraph_vector_int_resize (v : list nat) (n : nat) : list nat :=
  take n v ++ replicate (n - length v) 0.

(** ** The support builder *)

(** [igraph_truss_i_unpack]: the triangle [a, b, c] of the flat vector [tri]
    becomes the three vertex pairs [a, b, a, c, b, c].  The loop advances by
    whole triples; the triangle lister returns whole triples, and a ragged
    tail, which the source would read past the end of [tri], is dropped. *)
Fixpoint igraph_truss_i_unpack (tri : list nat) : list nat :=
  match tri with
  | a :: b :: c :: tri' => a :: b :: a :: c :: b :: c :: igraph_truss_i_unpack tri'
  | _ => []
  end.

(** [igraph_truss_i_compute_support]: [support[eid[i]] += 1] for every [i]. *)
Definition igraph_truss_i_compute_support (eid : list nat) (support : list nat) : list nat :=
  foldl (λ sup e, alter S e sup) support eid.

(** The part of [igraph_trussness] before the peeler is called: [support]
    is initialised to [igraph_ecount(graph)] zeros, the triangles are
    unpacked, resolved and tallied.  [None] is the error return of
    [IGRAPH_CHECK(igraph_get_eids(...))]. *)
Definition build_support (g : igraph_t) (triangles : list nat) : option (list nat) :=
  eid ← igraph_get_eids g (igraph_truss_i_unpack triangles);
  Some (igraph_truss_i_compute_support eid (replicate (igraph_ecount g) 0)).

(** The triangle lister hands the triangles over as one flat vector. *)
Definition flatten_triangles (ts : list (nat * nat * nat)) : list nat :=
  ts ≫= λ t, [t.1.1; t.1.2; t.2].

(** A vertex triple is a triangle of the graph: three distinct vertices,
    pairwise joined by an edge. *)
Definition is_triangle (g : igraph_t) (t : nat * nat * nat) : Prop :=
  t.1.1 ≠ t.1.2 ∧ t.1.1 ≠ t.2 ∧ t.1.2 ≠ t.2 ∧
  is_Some (igraph_get_eid g t.1.1 t.1.2) ∧
  is_Some (igraph_get_eid g t.1.1 t.2) ∧
  is_Some (igraph_get_eid g t.1.2 t.2).

#[global] Instance is_triangle_dec g t : Decision (is_triangle g t).
Proof. unfold is_triangle. apply _. Defined.

(** The edge [e] is one of the three edges the triangle [t] resolves to. *)
Definition triangle_edge (g : igraph_t) (e : nat) (t : nat * nat * nat) : Prop :=
  igraph_get_eid g t.1.1 t.1.2 = Some e ∨
  igraph_get_eid g t.1.1 t.2 = Some e ∨
  igraph_get_eid g t.1.2 t.2 = Some e.

#[global] Instance triangle_edge_dec g e t : Decision (triangle_edge g e t).
Proof. unfold triangle_edge. apply _. Defined.

(** ** The truss peeler *)

(** The tie-break: the element [*s.begin()] of a non-empty
    [unordered_set] [s].  Every popped edge is completed and never enters a
    bucket again, so no two pops of a run see the same set, and a choice
    for every set covers every order in which a run can pop. *)
Record tie_break := TieBreak {
  set_begin : gset nat → nat;
  set_begin_elem : ∀ s, s ≠ ∅ → set_begin s ∈ s
}.

(** The variables of [igraph_i_trussness] that the loops update.
    [stores] is not in the source: it records every store into
    [trussness], latest first, as [(edge, value)]. *)
Record peel_state := PeelState {
  support : list nat;
  completed : list bool;
  vec : list (gset nat);
  trussness : list nat;
  stores : list (nat * nat)
}.

(** Lines 239-244 (and 246-251): demote edge [e] if it is above the
    current level. *)
Definition demote (level e : nat) (st : peel_state) : peel_state :=
  if decide (level < support st !!! e) then
    let newLevel := support st !!! e - 1 in
    PeelState (<[e := newLevel]> (support st))
              (completed st)
              (alter (λ s, s ∖ {[e]}) (newLevel + 1)
                 (alter (λ s, {[e]} ∪ s) newLevel (vec st)))
              (trussness st)
              (stores st)
  else st.

(** Lines 237-252, once [e1] and [e2] are known. *)
Definition demote_pair (level e1 e2 : nat) (st : peel_state) : peel_state :=
  if completed st !!! e1 || completed st !!! e2 then st
  else demote level e2 (demote level e1 st).

(** Lines 230-252: the body of the loop over the common neighbours.  A
    common neighbour is joined to both end points, so both lookups
    succeed on a run ([peel_access_in_range]); the source ignores their
    return code, and the second branch stands for what it would do with
    stale ids. *)
Definition visit_neighbor (g : igraph_t) (level fromVertex toVertex n : nat)
    (st : peel_state) : peel_state :=
  match igraph_get_eid g fromVertex n, igraph_get_eid g toVertex n with
  | Some e1, Some e2 => demote_pair level e1 e2 st
  | _, _ => st
  end.

(** [trussness[e] = value; completed[e] = 1] (lines 186-187 and 255-256). *)
Definition record_edge (e value : nat) (st : peel_state) : peel_state :=
  PeelState (support st)
            (<[e := true]> (completed st))
            (vec st)
            (<[e := value]> (trussness st))
            ((e, value) :: stores st).

(** Lines 204-205: [vec[level].erase(seed)]. *)
Definition erase_seed (level seed : nat) (st : peel_state) : peel_state :=
  PeelState (support st) (completed st)
            (alter (λ s, s ∖ {[seed]}) level (vec st))
            (trussness st) (stores st).

(** Lines 213-225: the common neighbours of the end points, the shorter
    neighbour list first. *)
Definition common_neighbors (g : igraph_t) (fromVertex toVertex : nat) : list nat :=
  let fromNeighbors := igraph_adjlist g fromVertex in
  let toNeighbors := igraph_adjlist g toVertex in
  if decide (length toNeighbors < length fromNeighbors)
  then igraph_vector_int_intersect_sorted toNeighbors fromNeighbors
  else igraph_vector_int_intersect_sorted fromNeighbors toNeighbors.

(** The places of the two nested loops at which the state is observed:
    the test of the [while] at line 203 for a level, the test of the [for]
    at line 229 with the neighbours still to visit, and the exit of the
    loop over the levels. *)
Inductive peel_pc :=
  | AtWhile (level : nat)
  | AtFor (level seed fromVertex toVertex : nat) (commonNeighbors : list nat)
  | AtEnd.

Definition peel_config : Type := peel_pc * peel_state.

(** One move from an observation point to the next.  [max] is the local
    of that name. *)
Definition peel_step (tb : tie_break) (g : igraph_t) (max : nat)
    (c : peel_config) : peel_config :=
  let st := c.2 in
  match c.1 with
  | AtWhile level =>
      if decide (max < level) then (AtEnd, st)
      else if decide (vec st !!! level = ∅) then (AtWhile (S level), st)
      else
        let seed := set_begin tb (vec st !!! level) in
        let ft := igraph_edge g seed in
        (AtFor level seed ft.1 ft.2 (common_neighbors g ft.1 ft.2),
         erase_seed level seed st)
  | AtFor level seed fromVertex toVertex (n :: ns) =>
      (AtFor level seed fromVertex toVertex ns,
       visit_neighbor g level fromVertex toVertex n st)
  | AtFor level seed fromVertex toVertex [] =>
      (AtWhile level, record_edge seed (level + 2) st)
  | AtEnd => c
  end.

(** Lines 178-180: every edge enters the bucket of its support. *)
Definition fill_buckets (support : list nat) (vec : list (gset nat)) : list (gset nat) :=
  foldl (λ v i, alter (λ s, {[i]} ∪ s) (support !!! i) v) vec (seq 0 (length support)).

(** Lines 185-188: the edges of bucket 0 are recorded with trussness 2. *)
Definition complete_level0 (st : peel_state) : peel_state :=
  foldl (λ st e, record_edge e 2 st) st (elements (vec st !!! 0)).

(** Lines 161-197, for [nedges > 0]: the state on entry to the loop over
    the levels. *)
Definition peel_init (support : list nat) (trussness : list nat) : peel_config :=
  let nedges := length support in
  let max := igraph_vector_int_max support in
  (AtWhile 1,
   complete_level0
     (PeelState support
                (replicate nedges false)
                (fill_buckets support (replicate (max + 1) ∅))
                (igraph_vector_int_resize trussness nedges)
                [])).

(** A number of moves that suffices ([peel_run_ends] below): every level
    is left once, every edge is popped at most once, and a popped edge has
    at most [nedges] common neighbours. *)
Definition peel_fuel (nedges max : nat) : nat :=
  max + 2 + nedges * (nedges + 2).

Definition peel_run (tb : tie_break) (g : igraph_t) (max : nat) (fuel : nat)
    (c : peel_config) : peel_config :=
  Nat.iter fuel (peel_step tb g max) c.

(** The stages of [igraph_i_trussness], in the order of the source.  They
    are not values of the program: a call is observed to go through them,
    as [stores] observes the stores into [trussness]. *)
Inductive peel_stage :=
  | StageResize (nedges : nat)      (* line 162: [trussness] gets [nedges] slots *)
  | StageMax (support : list nat)   (* line 168: [igraph_vector_int_max(support)] *)
  | StageCompleted                  (* line 171: [completed.resize(nedges)] *)
  | StageBuckets                    (* lines 175-180: [vec.resize(max + 1)], filled *)
  | StageLevel0                     (* lines 185-188: bucket 0 is recorded *)
  | StageAdjlist                    (* lines 191-197: the sorted neighbour lists *)
  | StageLevels.                    (* lines 200-259: the loop over the levels *)

(** [igraph_i_trussness], with the stages the call goes through: the
    return at line 164 comes after the resize and before everything else.
    [Some] is [IGRAPH_SUCCESS] with the final content of [trussness]. *)
Definition igraph_i_trussness_traced (tb : tie_break) (g : igraph_t)
    (support0 : list nat) (trussness0 : list nat) :
    list peel_stage * option (list nat) :=
  let nedges := length support0 in
  if decide (nedges = 0) then
    ([StageResize nedges], Some (igraph_vector_int_resize trussness0 nedges))
  else
    let max := igraph_vector_int_max support0 in
    let c := peel_run tb g max (peel_fuel nedges max) (peel_init support0 trussness0) in
    ([StageResize nedges; StageMax support0; StageCompleted; StageBuckets;
      StageLevel0; StageAdjlist; StageLevels],
     match c.1 with
     | AtEnd => Some (trussness c.2)
     | _ => None
     end).

(** [igraph_i_trussness]: what the call returns. *)
Definition igraph_i_trussness (tb : tie_break) (g : igraph_t)
    (support0 : list nat) (trussness0 : list nat) : option (list nat) :=
  (igraph_i_trussness_traced tb g support0 trussness0).2.

(** [igraph_trussness], given the vector [triangles] that
    [igraph_list_triangles] returned. *)
Definition igraph_trussness (tb : tie_break) (g : igraph_t)
    (triangles : list nat) (trussness0 : list nat) : option (list nat) :=
  support0 ← build_support g triangles;
  igraph_i_trussness tb g support0 trussness0.

(** The smallest element first: one tie-break among many. *)
Definition least_elem (s : gset nat) : nat := default 0 (head (merge_sort (≤) (elements s))).

Lemma least_elem_in s : s ≠ ∅ → least_elem s ∈ s.
Proof.
  intros Hs. unfold least_elem.
  destruct (merge_sort (≤) (elements s)) as [|x l] eqn:E.
  - exfalso. apply Hs. apply leibniz_equiv, elements_empty_inv.
    apply Permutation_nil_r. rewrite <- E. by rewrite merge_sort_Permutation.
  - simpl. apply elem_of_elements. rewrite <- (merge_sort_Permutation (≤)), E. left.
Qed.

Definition least_first : tie_break := TieBreak least_elem least_elem_in.

(** The largest element first. *)
Definition greatest_elem (s : gset nat) : nat := max_list (elements s).

Lemma greatest_elem_in s : s ≠ ∅ → greatest_elem s ∈ s.
Proof.
  intros Hs. apply elem_of_elements, max_list_elem_of.
  intros E. apply Hs. apply leibniz_equiv, elements_empty_inv. by rewrite E.
Qed.

Definition greatest_first : tie_break := TieBreak greatest_elem greatest_elem_in.

(** ** What is observed on a run *)

(** The configurations a run goes through. *)
Definition peel_reachable (tb : tie_break) (g : igraph_t)
    (support0 trussness0 : list nat) (c : peel_config) : Prop :=
  ∃ k, c = peel_run tb g (igraph_vector_int_max support0) k (peel_init support0 trussness0).

(** The value of [level] at an observation point; on exit of the loop over
    the levels it is [max + 1]. *)
Definition pc_level (max : nat) (pc : peel_pc) : nat :=
  match pc with
  | AtWhile level => level
  | AtFor level _ _ _ _ => level
  | AtEnd => S max
  end.

(** The edge that was popped and is not recorded yet. *)
Definition in_flight (pc : peel_pc) (e : nat) : Prop :=
  match pc with
  | AtFor _ seed _ _ _ => e = seed
  | _ => False
  end.

#[global] Instance in_flight_dec pc e : Decision (in_flight pc e).
Proof. destruct pc; simpl; apply _. Defined.

(** How many times [trussness[e]] was stored into. *)
Definition store_count (e : nat) (st : peel_state) : nat :=
  length (filter (λ w, w.1 = e) (stores st)).

(** The bookkeeping that every configuration of a run satisfies. *)
Record peel_inv (g : igraph_t) (support0 : list nat) (c : peel_config) : Prop := PeelInv {
  inv_len_support : length (support c.2) = length support0;
  inv_len_completed : length (completed c.2) = length support0;
  inv_len_vec : length (vec c.2) = S (max_list support0);
  inv_len_trussness : length (trussness c.2) = length support0;
  inv_support_le : ∀ e, support c.2 !!! e ≤ support0 !!! e;
  inv_level : 1 ≤ pc_level (max_list support0) c.1 ≤ S (max_list support0);
  inv_bucket_range : ∀ k e, e ∈ vec c.2 !!! k → e < length support0;
  inv_pending : ∀ e, e < length support0 → completed c.2 !!! e = false →
      ¬ in_flight c.1 e →
      pc_level (max_list support0) c.1 ≤ support c.2 !!! e ∧
      ∀ k, e ∈ vec c.2 !!! k ↔ k = support c.2 !!! e;
  inv_seed : ∀ level seed f t ns, c.1 = AtFor level seed f t ns →
      level ≤ max_list support0 ∧ seed < length support0 ∧
      completed c.2 !!! seed = false ∧ support c.2 !!! seed = level ∧
      (∀ k, seed ∉ vec c.2 !!! k) ∧ length ns ≤ length g ∧
      igraph_edge g seed = (f, t) ∧
      ∃ visited, common_neighbors g f t = visited ++ ns;
  inv_completed : ∀ e, e < length support0 → completed c.2 !!! e = true →
      support c.2 !!! e ≤ pc_level (max_list support0) c.1 ∧
      (∀ k, e ∈ vec c.2 !!! k ↔ k = 0 ∧ support c.2 !!! e = 0) ∧
      trussness c.2 !!! e = support c.2 !!! e + 2 ∧
      store_count e c.2 = 1;
  inv_unstored : ∀ e, completed c.2 !!! e = false → store_count e c.2 = 0;
  inv_support_pos : ∀ e, 0 < support0 !!! e → 0 < support c.2 !!! e
}.

(** Two states that differ in [trussness] and [stores] at most. *)
Definition agree (st st' : peel_state) : Prop :=
  support st = support st' ∧ completed st = completed st' ∧ vec st = vec st'.

(** The number of edges that are not completed. *)
Definition pending_count (st : peel_state) : nat :=
  length (filter (λ b, b = false) (completed st)).

(** An upper bound of the number of moves left. *)
Definition peel_measure (nedges max : nat) (c : peel_config) : nat :=
  match c.1 with
  | AtEnd => 0
  | AtWhile level => 1 + (S max - level) + pending_count c.2 * (nedges + 2)
  | AtFor level _ _ _ ns =>
      1 + (S max - level) + (pending_count c.2 - 1) * (nedges + 2) + 1 + length ns
  end.

(** ** The result, described without the order of the pops *)

(** Edge [e] is the edge that a lookup of its own end points returns, and
    it is not a loop.  The edges that the support builder counts for are of
    this kind. *)
Definition active (g : igraph_t) (e : nat) : Prop :=
  (igraph_edge g e).1 ≠ (igraph_edge g e).2 ∧
  igraph_get_eid g (igraph_edge g e).1 (igraph_edge g e).2 = Some e.

(** The id a lookup returns, and an id past the last edge when it fails. *)
Definition eid_of (g : igraph_t) (a b : nat) : nat :=
  default (length g) (igraph_get_eid g a b).

(** The number of common neighbours [w] of [u] and [v] with [φ u v w]. *)
Definition wedge_count (g : igraph_t) (φ : nat → nat → nat → Prop)
    `{∀ u v w, Decision (φ u v w)} (u v : nat) : nat :=
  length (filter (φ u v) (common_neighbors g u v)).

(** The triangle on [u], [v], [w] counts for the peeler: the two edges that
    close it over the edge from [u] to [v] have a positive initial
    support. *)
Definition wedge_live (g : igraph_t) (support0 : list nat) (u v w : nat) : Prop :=
  0 < support0 !!! eid_of g u w ∧ 0 < support0 !!! eid_of g v w.

(** Edge [p] no longer stands for the triangle whose third vertex is [x]:
    it is completed, or it is the popped edge and [x] has been visited. *)
Definition is_out (c : peel_config) (p x : nat) : bool :=
  completed c.2 !!! p ||
  match c.1 with
  | AtFor _ seed _ _ ns => bool_decide (p = seed ∧ x ∉ ns)
  | _ => false
  end.

(** The triangle on [u], [v], [w] counted for the peeler and was
    undone. *)
Definition wedge_dead (g : igraph_t) (support0 : list nat) (out : nat → nat → bool)
    (u v w : nat) : Prop :=
  wedge_live g support0 u v w ∧ (out (eid_of g u w) v ∨ out (eid_of g v w) u).

(** Both closing edges are in the set [X]. *)
Definition wedge_in (g : igraph_t) (X : gset nat) (u v w : nat) : Prop :=
  eid_of g u w ∈ X ∧ eid_of g v w ∈ X.

#[global] Instance wedge_live_dec g support0 u v w : Decision (wedge_live g support0 u v w).
Proof. unfold wedge_live. apply _. Defined.

#[global] Instance wedge_dead_dec g support0 out u v w :
  Decision (wedge_dead g support0 out u v w).
Proof. unfold wedge_dead. apply _. Defined.

#[global] Instance wedge_in_dec g X u v w : Decision (wedge_in g X u v w).
Proof. unfold wedge_in. apply _. Defined.

Definition triangles_live (g : igraph_t) (support0 : list nat) (e : nat) : nat :=
  wedge_count g (wedge_live g support0) (igraph_edge g e).1 (igraph_edge g e).2.

Definition triangles_dead (g : igraph_t) (support0 : list nat) (out : nat → nat → bool)
    (e : nat) : nat :=
  wedge_count g (wedge_dead g support0 out) (igraph_edge g e).1 (igraph_edge g e).2.

Definition triangles_in (g : igraph_t) (X : gset nat) (e : nat) : nat :=
  wedge_count g (wedge_in g X) (igraph_edge g e).1 (igraph_edge g e).2.

(** Every edge of [X] has a positive initial support and keeps a support
    of at least [k] when the triangles that leave [X] are undone.  When the
    initial support of an edge is the number of its triangles, this reads:
    every edge of [X] is in at least [k] triangles of [X]. *)
Definition truss_closed (g : igraph_t) (support0 : list nat) (k : nat) (X : gset nat) : Prop :=
  ∀ e, e ∈ X →
    0 < support0 !!! e ∧
    k + triangles_live g support0 e ≤ support0 !!! e + triangles_in g X e.

(** [k] is the largest level at which [e] is in such a set. *)
Definition truss_level (g : igraph_t) (support0 : list nat) (e k : nat) : Prop :=
  (∃ X, truss_closed g support0 k X ∧ e ∈ X) ∧
  ¬ (∃ X, truss_closed g support0 (S k) X ∧ e ∈ X).

(** What a run keeps true beyond the bookkeeping of [peel_inv]: the edge
    in flight is being processed along its own common neighbours and its
    level is its [truss_level]; so is the final support of every completed
    edge; the edges that are not completed lie in a set closed at the
    current level; and the support of a pending edge is its initial support
    less the triangles undone, or the current level if that is larger. *)
Record order_inv (g : igraph_t) (support0 : list nat) (c : peel_config) : Prop := OrderInv {
  oinv_flight : ∀ level seed f t ns, c.1 = AtFor level seed f t ns →
      igraph_edge g seed = (f, t) ∧
      (∃ visited, common_neighbors g f t = visited ++ ns) ∧
      truss_level g support0 seed level;
  oinv_completed : ∀ e, completed c.2 !!! e = true → 0 < support0 !!! e →
      truss_level g support0 e (support c.2 !!! e);
  oinv_closed : ∃ X, truss_closed g support0 (pc_level (max_list support0) c.1) X ∧
      ∀ e, completed c.2 !!! e = false → e ∈ X;
  oinv_dead : ∀ e, completed c.2 !!! e = false → ¬ in_flight c.1 e →
      support0 !!! e ≤ support c.2 !!! e + triangles_dead g support0 (is_out c) e ∧
      (pc_level (max_list support0) c.1 < support c.2 !!! e →
       support c.2 !!! e + triangles_dead g support0 (is_out c) e = support0 !!! e)
}.

(** The edges below [n] that satisfy [P], as a set. *)
Definition edge_set (P : nat → Prop) `{∀ e, Decision (P e)} (n : nat) : gset nat :=
  list_to_set (filter P (seq 0 n)).

(** ** The k-truss of the documentation of [igraph_trussness] *)

(** No loop and no two edges between the same two vertices: every edge is
    the edge that a lookup of its own end points returns. *)
Definition simple_graph (g : igraph_t) : Prop :=
  ∀ e, e < igraph_ecount g → active g e.

(** The vertices of a triple, in no order. *)
Definition triangle_set (t : nat * nat * nat) : gset nat := {[t.1.1; t.1.2; t.2]}.

(** Modelled from the spec: [igraph_list_triangles] is not part of the
    sources at hand.  The design document describes it as
    [list_triangles(graph)]: every triangle in the graph, each reported
    once, in any order. *)
Definition lists_triangles (g : igraph_t) (ts : list (nat * nat * nat)) : Prop :=
  Forall (is_triangle g) ts ∧
  ∀ t, is_triangle g t →
       length (filter (λ t', triangle_set t' = triangle_set t) ts) = 1.

(** Two listings of the same triangles: the triples of one are those of
    the other in another order, each with its vertices in any order. *)
Definition same_listing (ts ts' : list (nat * nat * nat)) : Prop :=
  ∃ ts1, ts ≡ₚ ts1 ∧ Forall2 (λ t t', triangle_set t = triangle_set t') ts1 ts'.

(** The comment at the head of [igraph_trussness]: "A k-truss is a subgraph
    in which every edge occurs in at least k-2 triangles in the subgraph."
    The subgraph is given by the set [X] of its edges; the triangles of the
    subgraph over an edge are counted by their third vertex, a common
    neighbour of the two end points whose edges to both end points are in
    [X] ([triangles_in]). *)
Definition k_truss (g : igraph_t) (k : nat) (X : gset nat) : Prop :=
  ∀ e, e ∈ X → e < igraph_ecount g ∧ k ≤ triangles_in g X e + 2.

(** ** Example graphs *)

(** One triangle. *)
Definition triangle_graph : igraph_t := [(0, 1); (0, 2); (1, 2)].

(** Two triangles that share the edge (1, 2). *)
Definition kite_graph : igraph_t := [(0, 1); (0, 2); (1, 2); (1, 3); (2, 3)].

(** One triangle and an edge that hangs off it. *)
Definition pendant_graph : igraph_t := [(0, 1); (0, 2); (1, 2); (2, 3)].

(** The graph of tests/unit/truss.c and its 18 triangles. *)
Definition unit_test_graph : igraph_t :=
  [(0, 1); (0, 2); (0, 3); (0, 4); (1, 2); (1, 3); (1, 4); (2, 3); (2, 4); (3, 4);
   (3, 6); (3, 11); (4, 5); (4, 6); (5, 6); (5, 7); (5, 8); (5, 9); (6, 7); (6, 10);
   (6, 11); (7, 8); (7, 9); (8, 9); (8, 10)].

Definition unit_test_triangles : list nat :=
  [0; 1; 2; 0; 1; 3; 0; 1; 4; 0; 2; 3; 0; 2; 4; 0; 3; 4; 1; 2; 3; 1; 2; 4; 1; 3; 4;
   2; 3; 4; 3; 4; 6; 3; 6; 11; 4; 5; 6; 5; 6; 7; 5; 7; 8; 5; 7; 9; 5; 8; 9; 7; 8; 9].

(** The kite after the first pop at level 1: edge 0 is in flight and its
    common neighbour 2 is still to be visited. *)
Definition kite_config : peel_config :=
  peel_run least_first kite_graph 2 1 (peel_init [1; 1; 2; 1; 1] []).

(** The kite on return from the peeler. *)
Definition kite_final : peel_state :=
  (peel_run least_first kite_graph 2 (peel_fuel 5 2) (peel_init [1; 1; 2; 1; 1] [])).2.

(** * Properties *)

(** ** Edge lookup *)

Lemma get_eid_Some g a b e :
  igraph_get_eid g a b = Some e ↔
  ∃ x, g !! e = Some x ∧ joins a b x ∧ ∀ j y, g !! j = Some y → j < e → ¬ joins a b y.
Proof.
  unfold igraph_get_eid. split.
  - intros H. apply fmap_Some in H as [[i x] [H ->]].
    apply list_find_Some in H. eauto.
  - intros (x & H1 & H2 & H3). apply fmap_Some. exists (e, x). split; [|done].
    apply list_find_Some. eauto.
Qed.

Lemma get_eid_lt g a b e : igraph_get_eid g a b = Some e → e < length g.
Proof. intros (x & H & _)%get_eid_Some. by eapply lookup_lt_Some. Qed.

Lemma get_eid_edge g a b e :
  igraph_get_eid g a b = Some e → joins a b (igraph_edge g e).
Proof.
  intros (x & H & Hj & _)%get_eid_Some. unfold igraph_edge.
  by rewrite (list_lookup_total_correct _ _ _ H).
Qed.

Lemma joins_sym a b x : joins a b x ↔ joins b a x.
Proof. unfold joins. tauto. Qed.

Lemma get_eid_sym g a b : igraph_get_eid g a b = igraph_get_eid g b a.
Proof.
  destruct (igraph_get_eid g a b) as [e|] eqn:E1, (igraph_get_eid g b a) as [e'|] eqn:E2; try done.
  - apply get_eid_Some in E1 as (x & H1 & H2 & H3).
    apply get_eid_Some in E2 as (x' & H1' & H2' & H3').
    f_equal. destruct (Nat.lt_total e e') as [Hl|[->|Hl]]; [|done|].
    + exfalso. apply (H3' e x); [done..|]. by apply joins_sym.
    + exfalso. apply (H3 e' x'); [done..|]. by apply joins_sym.
  - exfalso. apply get_eid_Some in E1 as (x & H1 & H2 & H3).
    unfold igraph_get_eid in E2. apply fmap_None in E2.
    eapply list_find_None in E2. eapply Forall_lookup_1 in E2; [|done].
    apply E2. by apply joins_sym.
  - exfalso. apply get_eid_Some in E2 as (x & H1 & H2 & H3).
    unfold igraph_get_eid in E1. apply fmap_None in E1.
    eapply list_find_None in E1. eapply Forall_lookup_1 in E1; [|done].
    apply E1. by apply joins_sym.
Qed.

Lemma get_eid_is_Some g a b :
  is_Some (igraph_get_eid g a b) ↔ ∃ x, x ∈ g ∧ joins a b x.
Proof.
  unfold igraph_get_eid. rewrite fmap_is_Some. split.
  - intros [[i x] H]. apply list_find_Some in H as (H1 & H2 & _).
    exists x. split; [|done]. by eapply list_elem_of_lookup_2.
  - intros (x & Hx & Hj). eapply list_find_elem_of; eauto.
Qed.

(** Two pairs of vertices that resolve to one edge are one pair. *)
Lemma get_eid_inj g a b a' b' e :
  igraph_get_eid g a b = Some e → igraph_get_eid g a' b' = Some e →
  (a = a' ∧ b = b') ∨ (a = b' ∧ b = a').
Proof.
  intros H1%get_eid_edge H2%get_eid_edge. unfold joins in *.
  destruct H1 as [H1|H1], H2 as [H2|H2]; rewrite H1 in H2; simplify_eq; auto.
Qed.

(** ** The support builder *)

Lemma unpack_flatten_cons a b c ts :
  igraph_truss_i_unpack (flatten_triangles ((a, b, c) :: ts)) =
  a :: b :: a :: c :: b :: c :: igraph_truss_i_unpack (flatten_triangles ts).
Proof. done. Qed.

Lemma compute_support_length eid sup :
  length (igraph_truss_i_compute_support eid sup) = length sup.
Proof.
  unfold igraph_truss_i_compute_support. revert sup.
  induction eid as [|x eid IH]; intros sup; simpl; [done|].
  by rewrite IH, length_alter.
Qed.

Lemma compute_support_lookup eid sup e :
  e < length sup →
  igraph_truss_i_compute_support eid sup !!! e =
  sup !!! e + length (filter (λ x, x = e) eid).
Proof.
  unfold igraph_truss_i_compute_support. revert sup.
  induction eid as [|x eid IH]; intros sup He; simpl; [lia|].
  rewrite IH by (by rewrite length_alter).
  rewrite list_lookup_total_alter, filter_cons.
  repeat case_decide; simpl; try lia; destruct_and?; subst; try lia.
Qed.

(** The ids that the three pairs of a triangle resolve to are distinct, so
    an edge is counted once for it or not at all. *)
Lemma triangle_tally g a b c e1 e2 e3 e :
  a ≠ b → a ≠ c → b ≠ c →
  igraph_get_eid g a b = Some e1 →
  igraph_get_eid g a c = Some e2 →
  igraph_get_eid g b c = Some e3 →
  length (filter (λ x, x = e) [e1; e2; e3]) =
  if decide (triangle_edge g e (a, b, c)) then 1 else 0.
Proof.
  intros Hab Hac Hbc H1 H2 H3.
  assert (e1 ≠ e2) by (intros ->; destruct (get_eid_inj _ _ _ _ _ _ H1 H2); lia).
  assert (e1 ≠ e3) by (intros ->; destruct (get_eid_inj _ _ _ _ _ _ H1 H3); lia).
  assert (e2 ≠ e3) by (intros ->; destruct (get_eid_inj _ _ _ _ _ _ H2 H3); lia).
  rewrite !filter_cons, filter_nil.
  destruct (decide (triangle_edge g e (a, b, c))) as [Ht|Ht];
    unfold triangle_edge in Ht; simpl in Ht; rewrite H1, H2, H3 in Ht;
    repeat case_decide; simpl; try lia; destruct_or?; simplify_eq; try lia;
    exfalso; naive_solver.
Qed.

Lemma get_eids_triangles g ts :
  Forall (is_triangle g) ts →
  ∃ eid, igraph_get_eids g (igraph_truss_i_unpack (flatten_triangles ts)) = Some eid ∧
    ∀ e, length (filter (λ x, x = e) eid) = length (filter (triangle_edge g e) ts).
Proof.
  induction 1 as [|[[a b] c] ts Ht _ (eid & IH1 & IH2)].
  - exists []. done.
  - destruct Ht as (Hab & Hac & Hbc & [e1 H1] & [e2 H2] & [e3 H3]); simpl in * |-.
    exists (e1 :: e2 :: e3 :: eid). split.
    + rewrite unpack_flatten_cons. simpl. rewrite H1; simpl. rewrite H2; simpl.
      rewrite H3; simpl. by rewrite IH1.
    + intros e. change (e1 :: e2 :: e3 :: eid) with ([e1; e2; e3] ++ eid).
      rewrite filter_app, length_app, IH2, (triangle_tally g a b c) by done.
      rewrite (filter_cons _ (a, b, c)). by case_decide.
Qed.

Lemma build_support_Some (g : igraph_t) (ts : list (nat * nat * nat)) :
  Forall (is_triangle g) ts →
  ∃ eid,
    build_support g (flatten_triangles ts) =
      Some (igraph_truss_i_compute_support eid (replicate (igraph_ecount g) 0)) ∧
    ∀ e, length (filter (λ x, x = e) eid) = length (filter (triangle_edge g e) ts).
Proof.
  intros Hts. destruct (get_eids_triangles g ts Hts) as (eid & H1 & H2).
  exists eid. split; [|done]. unfold build_support. by rewrite H1.
Qed.

(** ** The moves of the peeler, one by one *)

Lemma lookup_total_nat_ge (l : list nat) i : length l ≤ i → l !!! i = 0.
Proof. intros H. rewrite list_lookup_total_alt, lookup_ge_None_2; done. Qed.

Lemma lookup_total_false_lt (l : list bool) i : l !!! i = false → i < length l.
Proof.
  intros H. destruct (decide (i < length l)); [done|].
  rewrite list_lookup_total_alt, lookup_ge_None_2 in H by lia. done.
Qed.

Lemma lookup_total_le_max_list (l : list nat) i : l !!! i ≤ max_list l.
Proof.
  destruct (decide (i < length l)) as [H|H].
  - apply max_list_elem_of_le, list_elem_of_lookup_total_2. done.
  - rewrite lookup_total_nat_ge by lia. lia.
Qed.

Lemma demote_no_op level e st : support st !!! e ≤ level → demote level e st = st.
Proof. intros H. unfold demote. rewrite decide_False by lia. done. Qed.

Lemma demote_in_range level e st : level < support st !!! e → e < length (support st).
Proof.
  intros H. destruct (decide (e < length (support st))); [done|].
  rewrite lookup_total_nat_ge in H by lia. lia.
Qed.

Lemma demote_support level e st x :
  level < support st !!! e →
  support (demote level e st) !!! x =
  if decide (x = e) then support st !!! e - 1 else support st !!! x.
Proof.
  intros H. pose proof (demote_in_range _ _ _ H).
  unfold demote. rewrite decide_True by done. simpl.
  rewrite list_lookup_total_insert. repeat case_decide; destruct_and?; subst; try done.
  exfalso; auto.
Qed.

Lemma demote_vec level e st k x :
  level < support st !!! e → support st !!! e < length (vec st) →
  x ∈ vec (demote level e st) !!! k ↔
  (x = e ∧ k = support st !!! e - 1) ∨
  (x ∈ vec st !!! k ∧ ¬ (x = e ∧ k = support st !!! e)).
Proof.
  intros H Hlen. unfold demote. rewrite decide_True by done. simpl.
  replace (support st !!! e - 1 + 1) with (support st !!! e) by lia.
  rewrite !list_lookup_total_alter, !length_alter.
  repeat case_decide; destruct_and?; subst; try lia.
  - set_solver by lia.
  - set_solver by lia.
  - assert (k ≠ support st !!! e) by lia. assert (k ≠ support st !!! e - 1) by lia.
    set_solver by lia.
Qed.

Lemma demote_others level e st :
  completed (demote level e st) = completed st ∧
  trussness (demote level e st) = trussness st ∧
  stores (demote level e st) = stores st ∧
  length (support (demote level e st)) = length (support st) ∧
  length (vec (demote level e st)) = length (vec st).
Proof.
  unfold demote. case_decide; simpl; [|done].
  by rewrite length_insert, !length_alter.
Qed.

Lemma demote_inv g support0 pc st e :
  peel_inv g support0 (pc, st) →
  completed st !!! e = false →
  peel_inv g support0 (pc, demote (pc_level (max_list support0) pc) e st).
Proof.
  intros Hinv Hc. set (level := pc_level (max_list support0) pc).
  destruct (decide (level < support st !!! e)) as [Hlt|Hle];
    [|by rewrite demote_no_op by lia].
  destruct Hinv as [L1 L2 L3 L4 Hle Hlev Hrng Hpend Hseed Hcompl Hsto Hpos]; simpl in *.
  fold level in Hlev, Hpend, Hcompl.
  pose proof (demote_in_range _ _ _ Hlt) as He. rewrite L1 in He.
  assert (Hnf : ¬ in_flight pc e).
  { destruct pc as [|l seed f t ns|]; simpl; try tauto. intros ->.
    destruct (Hseed _ _ _ _ _ eq_refl) as (_ & _ & _ & Hs & _). subst level. simpl in *. lia. }
  destruct (Hpend e He Hc Hnf) as [Hs Hin].
  assert (Hv : support st !!! e < length (vec st)).
  { rewrite L3. pose proof (Hle e). pose proof (lookup_total_le_max_list support0 e). lia. }
  destruct (demote_others level e st) as (E1 & E2 & E3 & E4 & E5).
  constructor; simpl; fold level; rewrite ?E1, ?E2, ?E3, ?E4, ?E5; try done.
  - intros x. rewrite demote_support by done. case_decide; subst; [|done].
    pose proof (Hle e). lia.
  - intros k x [[-> _]|[Hx _]]%demote_vec; [done|eauto|done..].
  - intros x Hx Hcx Hfx. rewrite demote_support by done.
    destruct (Hpend x Hx Hcx Hfx) as [Hsx Hinx].
    case_decide; subst.
    + split; [lia|]. intros k. rewrite demote_vec by done. rewrite Hin. intuition lia.
    + split; [done|]. intros k. rewrite demote_vec by done. rewrite Hinx. intuition lia.
  - intros l seed f t ns ->. destruct (Hseed _ _ _ _ _ eq_refl) as (H1 & H2 & H3 & H4 & H5 & H6 & H7 & H8).
    simpl in Hnf. split_and!; try done.
    + rewrite demote_support by done. by rewrite decide_False by congruence.
    + intros k. rewrite demote_vec by done. intros [[? _]|[? _]]; [congruence|].
      by eapply H5.
  - intros x Hx Hcx. destruct (Hcompl x Hx Hcx) as (H1 & H2 & H3 & H4).
    assert (x ≠ e) by congruence.
    rewrite demote_support, decide_False by done.
    split; [done|]. split; [|by unfold store_count; rewrite E3].
    intros k. rewrite demote_vec by done. rewrite H2. intuition lia.
  - intros x Hx. unfold store_count. rewrite E3. by apply Hsto.
  - intros x Hx. rewrite demote_support by done. case_decide; subst; [lia|by apply Hpos].
Qed.

Lemma demote_pair_inv g support0 pc st e1 e2 :
  peel_inv g support0 (pc, st) →
  peel_inv g support0 (pc, demote_pair (pc_level (max_list support0) pc) e1 e2 st).
Proof.
  intros Hinv. unfold demote_pair.
  destruct (completed st !!! e1) eqn:E1; simpl; [done|].
  destruct (completed st !!! e2) eqn:E2; simpl; [done|].
  apply demote_inv; [by apply demote_inv|].
  by destruct (demote_others (pc_level (max_list support0) pc) e1 st) as (-> & _).
Qed.

Lemma visit_neighbor_inv g support0 pc st f t n :
  peel_inv g support0 (pc, st) →
  peel_inv g support0 (pc, visit_neighbor g (pc_level (max_list support0) pc) f t n st).
Proof.
  intros Hinv. unfold visit_neighbor.
  destruct (igraph_get_eid g f n), (igraph_get_eid g t n); try done.
  by apply demote_pair_inv.
Qed.

Lemma erase_seed_vec level seed (v : list (gset nat)) k x :
  level < length v →
  x ∈ alter (λ s, s ∖ {[seed]}) level v !!! k ↔
  x ∈ v !!! k ∧ ¬ (x = seed ∧ k = level).
Proof.
  intros Hl. rewrite list_lookup_total_alter.
  case_decide; destruct_and?; subst; set_solver by lia.
Qed.

(** The neighbour lists are no longer than the edge list. *)
Lemma sorted_insert_length x l : length (sorted_insert x l) ≤ S (length l).
Proof. induction l as [|y l IH]; simpl; repeat case_decide; simpl; lia. Qed.

Lemma adjlist_length g v : length (igraph_adjlist g v) ≤ length g.
Proof.
  unfold igraph_adjlist. induction g as [|e g IH]; simpl in *; [done|].
  destruct (other_end v e) as [w|]; simpl; [|by apply Nat.le_le_succ_r].
  etrans; [apply sorted_insert_length|]. by apply le_n_S.
Qed.

Lemma intersect_sorted_length l1 l2 :
  length (igraph_vector_int_intersect_sorted l1 l2) ≤ length l1.
Proof.
  revert l2. induction l1 as [|a l1 IH]; intros l2; [by destruct l2|].
  induction l2 as [|b l2 IH2]; simpl; [lia|].
  repeat case_decide; simpl.
  - etrans; [apply IH|]. lia.
  - apply IH2.
  - pose proof (IH l2). lia.
Qed.

Lemma common_neighbors_length g f t : length (common_neighbors g f t) ≤ length g.
Proof.
  unfold common_neighbors. case_decide.
  - etrans; [apply intersect_sorted_length|apply adjlist_length].
  - etrans; [apply intersect_sorted_length|apply adjlist_length].
Qed.

(** The edge that is popped is a pending edge whose support is the level. *)
Lemma popped_edge g support0 level st seed :
  peel_inv g support0 (AtWhile level, st) →
  seed ∈ vec st !!! level →
  seed < length support0 ∧ completed st !!! seed = false ∧ support st !!! seed = level.
Proof.
  intros [L1 L2 L3 L4 Hle Hlev Hrng Hpend Hseed Hcompl Hsto Hpos] Hin; simpl in *.
  pose proof (Hrng _ _ Hin) as Hs. split; [done|].
  destruct (completed st !!! seed) eqn:Ec.
  - destruct (Hcompl seed Hs Ec) as (_ & H & _). apply H in Hin. lia.
  - split; [done|]. destruct (Hpend seed Hs Ec) as [_ H]; [tauto|].
    symmetry. by apply H.
Qed.

Lemma pop_inv tb g support0 level st :
  peel_inv g support0 (AtWhile level, st) →
  level ≤ max_list support0 →
  vec st !!! level ≠ ∅ →
  peel_inv g support0 (peel_step tb g (max_list support0) (AtWhile level, st)).
Proof.
  intros Hinv Hl Hne. unfold peel_step; simpl.
  rewrite decide_False by lia. rewrite decide_False by done.
  set (seed := set_begin tb (vec st !!! level)).
  assert (Hin : seed ∈ vec st !!! level) by by apply set_begin_elem.
  destruct (popped_edge _ _ _ _ _ Hinv Hin) as (Hs & Hc & Hsup).
  destruct Hinv as [L1 L2 L3 L4 Hle Hlev Hrng Hpend Hseed Hcompl Hsto Hpos]; simpl in *.
  assert (Hv : level < length (vec st)) by lia.
  constructor; simpl; rewrite ?length_alter; try done.
  - intros k x [Hx _]%erase_seed_vec; eauto.
  - intros x Hx Hcx Hfx. destruct (Hpend x Hx Hcx) as [H1 H2]; [tauto|].
    split; [done|]. intros k. rewrite erase_seed_vec by done. rewrite H2. intuition lia.
  - intros l s f t ns [= <- <- <- <- <-]. split_and!; try done.
    + intros k [Hk Hn]%erase_seed_vec; [|done].
      destruct (Hpend seed Hs Hc) as [_ H2]; [tauto|]. apply H2 in Hk. apply Hn. split; [done|lia].
    + apply common_neighbors_length.
    + by destruct (igraph_edge g seed).
    + by exists [].
  - intros x Hx Hcx. destruct (Hcompl x Hx Hcx) as (H1 & H2 & H3 & H4).
    assert (x ≠ seed) by congruence.
    split; [done|]. split; [|done].
    intros k. rewrite erase_seed_vec by done. rewrite H2. intuition lia.
Qed.

Lemma store_count_record x e v st :
  store_count x (record_edge e v st) =
  (if decide (e = x) then 1 else 0) + store_count x st.
Proof.
  unfold store_count, record_edge; simpl. rewrite filter_cons; simpl.
  repeat case_decide; simpl; congruence.
Qed.

Lemma record_inv tb g support0 level seed f t st :
  peel_inv g support0 (AtFor level seed f t [], st) →
  peel_inv g support0 (peel_step tb g (max_list support0) (AtFor level seed f t [], st)).
Proof.
  intros [L1 L2 L3 L4 Hle Hlev Hrng Hpend Hseed Hcompl Hsto Hpos]; simpl in *.
  destruct (Hseed _ _ _ _ _ eq_refl) as (S1 & S2 & S3 & S4 & S5 & S6 & S7 & S8).
  unfold peel_step; simpl.
  constructor; simpl; rewrite ?length_insert; try done.
  - intros x Hx Hcx _. rewrite list_lookup_total_insert in Hcx.
    case_decide; [done|]. apply Hpend; [done..|]. intros ->. lia.
  - intros x Hx Hcx. rewrite store_count_record.
    rewrite list_lookup_total_insert in Hcx. rewrite list_lookup_total_insert.
    rewrite L4, <- L2.
    destruct (decide (seed = x)) as [->|Hne].
    + rewrite !decide_True by (split; [done|lia]).
      rewrite Hsto by done. split; [lia|]. split; [|lia].
      intros k. split; [by intros ?%S5|lia].
    + rewrite decide_False in Hcx by tauto. rewrite decide_False by tauto.
      destruct (Hcompl x Hx Hcx) as (H1 & H2 & H3 & H4). done.
  - intros x Hcx. rewrite store_count_record.
    rewrite list_lookup_total_insert in Hcx.
    case_decide; [done|]. rewrite decide_False by (intros ->; lia).
    by apply Hsto.
Qed.

Lemma advance_inv tb g support0 level st :
  peel_inv g support0 (AtWhile level, st) →
  ¬ (level ≤ max_list support0 ∧ vec st !!! level ≠ ∅) →
  peel_inv g support0 (peel_step tb g (max_list support0) (AtWhile level, st)).
Proof.
  intros [L1 L2 L3 L4 Hle Hlev Hrng Hpend Hseed Hcompl Hsto Hpos] Hn; simpl in *.
  unfold peel_step; simpl. case_decide; [|case_decide].
  - constructor; simpl; try done; try lia.
    + intros x Hx Hcx _. destruct (Hpend x Hx Hcx) as [H1 H2]; [tauto|].
      split; [lia|done].
    + intros x Hx Hcx. destruct (Hcompl x Hx Hcx) as (H1 & H2 & H3 & H4).
      split; [lia|done].
  - constructor; simpl; try done; try lia.
    + intros x Hx Hcx _. destruct (Hpend x Hx Hcx) as [H1 H2]; [tauto|].
      split; [|done]. destruct (decide (support st !!! x = level)) as [E|E]; [|lia].
      exfalso. assert (x ∈ vec st !!! level) as Hin by by apply H2.
      rewrite H0 in Hin. set_solver.
    + intros x Hx Hcx. destruct (Hcompl x Hx Hcx) as (H1 & H2 & H3 & H4).
      split; [lia|done].
  - exfalso. apply Hn. split; [lia|done].
Qed.

Lemma neighbor_inv tb g support0 level seed f t n ns st :
  peel_inv g support0 (AtFor level seed f t (n :: ns), st) →
  peel_inv g support0 (peel_step tb g (max_list support0) (AtFor level seed f t (n :: ns), st)).
Proof.
  intros Hinv. unfold peel_step; simpl.
  assert (Hv := visit_neighbor_inv g support0 _ st f t n Hinv). simpl in Hv.
  destruct Hv as [L1 L2 L3 L4 Hle Hlev Hrng Hpend Hseed Hcompl Hsto Hpos]; simpl in *.
  constructor; simpl; try done.
  intros l s f' t' ns' [= <- <- <- <- <-].
  destruct (Hseed _ _ _ _ _ eq_refl) as (S1 & S2 & S3 & S4 & S5 & S6 & S7 & S8).
  destruct S8 as [visited S8].
  split_and!; try done; [simpl in S6; lia|].
  exists (visited ++ [n]). by rewrite <- app_assoc.
Qed.

(** Every move keeps the bookkeeping. *)
Lemma peel_step_inv tb g support0 c :
  peel_inv g support0 c → peel_inv g support0 (peel_step tb g (max_list support0) c).
Proof.
  destruct c as [[level|level seed f t [|n ns]|] st]; intros Hinv.
  - destruct (decide (level ≤ max_list support0 ∧ vec st !!! level ≠ ∅)) as [[H1 H2]|H].
    + by apply pop_inv.
    + by apply advance_inv.
  - by apply record_inv.
  - by apply neighbor_inv.
  - done.
Qed.

(** ** The state on entry to the loop over the levels *)

Lemma fill_buckets_fold (sup : list nat) (v : list (gset nat)) m :
  (∀ e, sup !!! e < length v) →
  length (foldl (λ v i, alter (λ s, {[i]} ∪ s) (sup !!! i) v) v (seq 0 m)) = length v ∧
  ∀ k e, e ∈ foldl (λ v i, alter (λ s, {[i]} ∪ s) (sup !!! i) v) v (seq 0 m) !!! k ↔
         e ∈ v !!! k ∨ (e < m ∧ sup !!! e = k).
Proof.
  intros Hv. induction m as [|m [IH1 IH2]].
  - split; [done|]. intros k e. simpl. intuition lia.
  - rewrite seq_S, foldl_app. simpl. split; [by rewrite length_alter|].
    intros k e. rewrite list_lookup_total_alter, IH1.
    case_decide as Hd.
    + destruct Hd as [<- _]. rewrite elem_of_union, elem_of_singleton, IH2.
      split; [intros [->|[?|[? ?]]]|intros [?|[? ?]]]; try (by auto with lia).
    + rewrite IH2. pose proof (Hv m).
      split; [intros [?|[? ?]]|intros [?|[? ?]]]; try (by auto with lia).
      destruct (decide (e = m)) as [->|]; [|auto with lia].
      exfalso. apply Hd. split; [done|lia].
Qed.

Lemma fill_buckets_spec (sup : list nat) k e :
  e ∈ fill_buckets sup (replicate (max_list sup + 1) ∅) !!! k ↔
  e < length sup ∧ sup !!! e = k.
Proof.
  unfold fill_buckets.
  destruct (fill_buckets_fold sup (replicate (max_list sup + 1) ∅) (length sup)) as [_ H].
  { intros x. rewrite length_replicate. pose proof (lookup_total_le_max_list sup x). lia. }
  rewrite H. split; [intros [Hin|?]; [|done]|auto].
  exfalso. destruct (decide (k < max_list sup + 1)).
  - rewrite lookup_total_replicate_2 in Hin by done. set_solver.
  - rewrite list_lookup_total_alt, lookup_ge_None_2 in Hin; [set_solver|].
    rewrite length_replicate. lia.
Qed.

Lemma fill_buckets_length (sup : list nat) :
  length (fill_buckets sup (replicate (max_list sup + 1) ∅)) = S (max_list sup).
Proof.
  unfold fill_buckets.
  destruct (fill_buckets_fold sup (replicate (max_list sup + 1) ∅) (length sup)) as [H _].
  { intros x. rewrite length_replicate. pose proof (lookup_total_le_max_list sup x). lia. }
  rewrite H, length_replicate. lia.
Qed.

Lemma record_edges_fold (l : list nat) st :
  (∀ x, x ∈ l → x < length (completed st) ∧ x < length (trussness st)) →
  support (foldl (λ st e, record_edge e 2 st) st l) = support st ∧
  vec (foldl (λ st e, record_edge e 2 st) st l) = vec st ∧
  length (completed (foldl (λ st e, record_edge e 2 st) st l)) = length (completed st) ∧
  length (trussness (foldl (λ st e, record_edge e 2 st) st l)) = length (trussness st) ∧
  (∀ x, completed (foldl (λ st e, record_edge e 2 st) st l) !!! x =
        if decide (x ∈ l) then true else completed st !!! x) ∧
  (∀ x, trussness (foldl (λ st e, record_edge e 2 st) st l) !!! x =
        if decide (x ∈ l) then 2 else trussness st !!! x) ∧
  (NoDup l → ∀ x, store_count x (foldl (λ st e, record_edge e 2 st) st l) =
        (if decide (x ∈ l) then 1 else 0) + store_count x st).
Proof.
  revert st. induction l as [|e l IH]; intros st Hr; simpl.
  - repeat split; try done.
  - destruct (Hr e) as [R1 R2]; [left|].
    destruct (IH (record_edge e 2 st)) as (I1 & I2 & I3 & I4 & I5 & I6 & I7).
    { intros x Hx. simpl. rewrite !length_insert. apply Hr. by right. }
    simpl in *. rewrite length_insert in I3. rewrite length_insert in I4.
    split_and!; try done.
    + intros x. rewrite I5, list_lookup_total_insert.
      repeat case_decide; try done; destruct_and?; subst; set_solver.
    + intros x. rewrite I6, list_lookup_total_insert.
      repeat case_decide; try done; destruct_and?; subst; set_solver.
    + intros [He Hnd]%NoDup_cons x. rewrite I7, store_count_record by done.
      repeat case_decide; subst; try lia; set_solver.
Qed.

Lemma resize_length v n : length (igraph_vector_int_resize v n) = n.
Proof.
  unfold igraph_vector_int_resize. rewrite length_app, length_take, length_replicate. lia.
Qed.

Lemma peel_init_state support0 trussness0 :
  let st := (peel_init support0 trussness0).2 in
  support st = support0 ∧
  (∀ k e, e ∈ vec st !!! k ↔ e < length support0 ∧ support0 !!! e = k) ∧
  length (vec st) = S (max_list support0) ∧
  length (completed st) = length support0 ∧
  length (trussness st) = length support0 ∧
  (∀ x, x < length support0 →
     completed st !!! x = bool_decide (support0 !!! x = 0)) ∧
  (∀ x, x < length support0 → support0 !!! x = 0 → trussness st !!! x = 2) ∧
  (∀ x, store_count x st = if decide (x < length support0 ∧ support0 !!! x = 0) then 1 else 0).
Proof.
  unfold peel_init, complete_level0, igraph_vector_int_max; cbn [snd].
  set (st0 := PeelState _ _ _ _ _).
  assert (Hb : ∀ x, x ∈ elements (vec st0 !!! 0) ↔ x < length support0 ∧ support0 !!! x = 0).
  { intros x. rewrite elem_of_elements. apply fill_buckets_spec. }
  destruct (record_edges_fold (elements (vec st0 !!! 0)) st0) as (I1 & I2 & I3 & I4 & I5 & I6 & I7).
  { intros x [Hx _]%Hb. simpl. by rewrite length_replicate, resize_length. }
  specialize (I7 (NoDup_elements _)).
  simpl in I3, I4. rewrite length_replicate in I3. rewrite resize_length in I4.
  split_and!; try done.
  - rewrite I2. intros k e. apply fill_buckets_spec.
  - rewrite I2. apply fill_buckets_length.
  - intros x Hx. rewrite I5.
    case_decide as Hd; rewrite Hb in Hd; case_bool_decide; try done; try tauto.
    simpl. by rewrite lookup_total_replicate_2.
  - intros x Hx Hz. rewrite I6. rewrite decide_True; [done|]. by apply Hb.
  - intros x. rewrite I7.
    assert (store_count x st0 = 0) as -> by done.
    destruct (decide (x ∈ elements (vec st0 !!! 0))) as [Hd|Hd]; rewrite Hb in Hd;
      case_decide; try done; tauto.
Qed.

Lemma peel_init_inv g support0 trussness0 :
  peel_inv g support0 (peel_init support0 trussness0).
Proof.
  destruct (peel_init_state support0 trussness0) as (I1 & I2 & I3 & I4 & I5 & I6 & I7 & I8).
  assert ((peel_init support0 trussness0).1 = AtWhile 1) as Hpc by done.
  destruct (peel_init support0 trussness0) as [pc st]. simpl in *. subst pc.
  constructor; simpl; rewrite ?I1; try done.
  - lia.
  - by intros k e [? _]%I2.
  - intros x Hx Hcx _. rewrite I6 in Hcx by done. apply bool_decide_eq_false in Hcx.
    split; [lia|]. intros k. rewrite I2. intuition lia.
  - intros x Hx Hcx. rewrite I6 in Hcx by done. apply bool_decide_eq_true in Hcx.
    rewrite I7, I8, Hcx by done. rewrite decide_True by done.
    split_and!; try done; [lia|]. intros k. rewrite I2. intuition lia.
  - intros x Hcx. pose proof (lookup_total_false_lt _ _ Hcx) as Hx. rewrite I4 in Hx.
    rewrite I6 in Hcx by done. apply bool_decide_eq_false in Hcx.
    rewrite I8. by rewrite decide_False by tauto.
Qed.

(** The bookkeeping holds all along a run. *)
Lemma peel_reachable_inv tb g support0 trussness0 c :
  peel_reachable tb g support0 trussness0 c → peel_inv g support0 c.
Proof.
  intros [k ->]. unfold peel_run, igraph_vector_int_max. induction k as [|k IH]; simpl.
  - apply peel_init_inv.
  - by apply peel_step_inv.
Qed.

(** ** The run ends *)

Lemma pending_count_insert (l : list bool) i :
  l !!! i = false →
  S (length (filter (λ b, b = false) (<[i := true]> l))) = length (filter (λ b, b = false) l).
Proof.
  revert i. induction l as [|b l IH]; intros i Hi.
  - done.
  - destruct i as [|i]; simpl in *.
    + subst b. rewrite !filter_cons. rewrite decide_False by done.
      rewrite decide_True by done. done.
    + rewrite !filter_cons. case_decide; simpl; rewrite <- (IH i) by done; done.
Qed.

Lemma pending_count_pos st e : completed st !!! e = false → 0 < pending_count st.
Proof.
  intros H. unfold pending_count. rewrite <- (pending_count_insert _ e H). lia.
Qed.

Lemma demote_pair_completed level e1 e2 st :
  completed (demote_pair level e1 e2 st) = completed st.
Proof.
  unfold demote_pair. destruct (_ || _); [done|].
  destruct (demote_others level e2 (demote level e1 st)) as (-> & _).
  by destruct (demote_others level e1 st) as (-> & _).
Qed.

Lemma visit_neighbor_completed g level f t n st :
  completed (visit_neighbor g level f t n st) = completed st.
Proof.
  unfold visit_neighbor. destruct (igraph_get_eid g f n), (igraph_get_eid g t n); try done.
  apply demote_pair_completed.
Qed.

Lemma peel_step_measure tb g support0 c :
  length g ≤ length support0 →
  peel_inv g support0 c → c.1 ≠ AtEnd →
  peel_measure (length support0) (max_list support0) (peel_step tb g (max_list support0) c)
  < peel_measure (length support0) (max_list support0) c.
Proof.
  intros Hg Hinv Hpc.
  destruct c as [[level|level seed f t [|n ns]|] st]; [| | |done].
  - unfold peel_step; simpl. case_decide; [|case_decide].
    + unfold peel_measure; simpl. lia.
    + unfold peel_measure; simpl. lia.
    + assert (Hin : set_begin tb (vec st !!! level) ∈ vec st !!! level)
        by by apply set_begin_elem.
      destruct (popped_edge _ _ _ _ _ Hinv Hin) as (Hs & Hc & Hsup).
      pose proof (pending_count_pos _ _ Hc) as Hp.
      unfold peel_measure; simpl. unfold pending_count in *; simpl.
      set (ft := igraph_edge g _).
      pose proof (common_neighbors_length g ft.1 ft.2).
      destruct (length (filter _ (completed st))) as [|p]; [lia|]. simpl. lia.
  - destruct (inv_seed _ _ _ Hinv _ _ _ _ _ eq_refl) as (S1 & S2 & S3 & S4 & S5 & S6 & S7 & S8).
    unfold peel_step, peel_measure; simpl. unfold pending_count; simpl.
    simpl in S3. rewrite <- (pending_count_insert _ seed S3). simpl. lia.
  - unfold peel_step, peel_measure; simpl. unfold pending_count.
    rewrite visit_neighbor_completed. lia.
Qed.

Lemma peel_step_end tb g max st k :
  Nat.iter k (peel_step tb g max) (AtEnd, st) = (AtEnd, st).
Proof. induction k as [|k IH]; simpl; [done|]. by rewrite IH. Qed.

Lemma peel_run_measure tb g support0 k c :
  length g ≤ length support0 →
  peel_inv g support0 c →
  peel_measure (length support0) (max_list support0) c ≤ k →
  (peel_run tb g (max_list support0) k c).1 = AtEnd.
Proof.
  intros Hg. unfold peel_run. revert c. induction k as [|k IH]; intros c Hinv Hm.
  - destruct c as [[| |] st]; unfold peel_measure in Hm; simpl in *;
      [by apply Nat.nle_succ_0 in Hm..|done].
  - rewrite Nat.iter_succ_r.
    assert (c.1 = AtEnd ∨ c.1 ≠ AtEnd) as [E|E] by (destruct c as [[| |] ?]; simpl; auto).
    + destruct c as [pc st]; simpl in E; subst pc.
      change (peel_step tb g (max_list support0) (AtEnd, st)) with (AtEnd, st).
      by rewrite peel_step_end.
    + apply IH; [by apply peel_step_inv|].
      pose proof (peel_step_measure tb g support0 c Hg Hinv E). lia.
Qed.

Lemma peel_init_measure support0 trussness0 :
  peel_measure (length support0) (max_list support0) (peel_init support0 trussness0)
  ≤ peel_fuel (length support0) (max_list support0).
Proof.
  destruct (peel_init_state support0 trussness0) as (_ & _ & _ & I4 & _).
  unfold peel_measure, peel_fuel.
  assert ((peel_init support0 trussness0).1 = AtWhile 1) as -> by done.
  assert (pending_count (peel_init support0 trussness0).2 ≤ length support0) as Hp.
  { unfold pending_count. rewrite <- I4. apply length_filter. }
  nia.
Qed.

(** The run of [igraph_i_trussness] reaches the exit of the loop over the
    levels within the fuel it is given. *)
Lemma peel_run_ends tb g support0 trussness0 :
  length g ≤ length support0 →
  (peel_run tb g (max_list support0) (peel_fuel (length support0) (max_list support0))
     (peel_init support0 trussness0)).1 = AtEnd.
Proof.
  intros Hg. apply peel_run_measure; [done|apply peel_init_inv|apply peel_init_measure].
Qed.

(** On exit every edge is completed. *)
Lemma peel_end_completed g support0 st e :
  peel_inv g support0 (AtEnd, st) → e < length support0 → completed st !!! e = true.
Proof.
  intros Hinv He. destruct (completed st !!! e) eqn:E; [done|].
  destruct (inv_pending _ _ _ Hinv e He E) as [H _]; [simpl; tauto|]. simpl in H.
  pose proof (inv_support_le _ _ _ Hinv e). simpl in *.
  pose proof (lookup_total_le_max_list support0 e). lia.
Qed.

(** [igraph_i_trussness] returns, and what it returns is the [trussness]
    of a configuration of the run that is at the exit. *)
Lemma igraph_i_trussness_returns tb g support0 trussness0 :
  support0 ≠ [] → length g ≤ length support0 →
  ∃ st, peel_reachable tb g support0 trussness0 (AtEnd, st) ∧
        igraph_i_trussness tb g support0 trussness0 = Some (trussness st).
Proof.
  intros Hne Hg. unfold igraph_i_trussness, igraph_i_trussness_traced.
  rewrite decide_False by (by destruct support0). cbn [snd].
  pose proof (peel_run_ends tb g support0 trussness0 Hg) as Hend.
  unfold igraph_vector_int_max.
  destruct (peel_run _ _ _ _ _) as [pc st] eqn:E. simpl in Hend. subst pc. simpl.
  exists st. split; [|done]. eexists. unfold igraph_vector_int_max. by rewrite E.
Qed.

(** ** Completed edges are frozen *)

Lemma demote_support_ne level e st x :
  x ≠ e → support (demote level e st) !!! x = support st !!! x.
Proof.
  intros Hne. unfold demote. case_decide; [|done]. simpl.
  by rewrite list_lookup_total_insert_ne.
Qed.

Lemma demote_pair_support level e1 e2 st x :
  completed st !!! x = true →
  support (demote_pair level e1 e2 st) !!! x = support st !!! x.
Proof.
  intros Hx. unfold demote_pair.
  destruct (completed st !!! e1) eqn:E1; [done|].
  destruct (completed st !!! e2) eqn:E2; [done|]. simpl.
  rewrite !demote_support_ne by congruence. done.
Qed.

Lemma peel_step_frozen tb g max c e :
  e < length (completed c.2) →
  completed c.2 !!! e = true →
  completed (peel_step tb g max c).2 !!! e = true ∧
  support (peel_step tb g max c).2 !!! e = support c.2 !!! e.
Proof.
  destruct c as [[level|level seed f t [|n ns]|] st]; simpl; intros He Hc.
  - unfold peel_step; simpl. repeat case_decide; done.
  - split; [|done]. rewrite list_lookup_total_insert. by case_decide.
  - rewrite visit_neighbor_completed. split; [done|].
    unfold visit_neighbor.
    destruct (igraph_get_eid g f n), (igraph_get_eid g t n); try done.
    by apply demote_pair_support.
  - done.
Qed.

(** ** The neighbour lists *)

Lemma elem_of_sorted_insert x y l : x ∈ sorted_insert y l ↔ x = y ∨ x ∈ l.
Proof.
  induction l as [|z l IH]; simpl.
  - rewrite list_elem_of_singleton. set_solver.
  - repeat case_decide; subst; rewrite ?elem_of_cons, ?IH; naive_solver.
Qed.

Lemma sorted_insert_sorted y l :
  StronglySorted lt l → StronglySorted lt (sorted_insert y l).
Proof.
  induction 1 as [|z l Hs IH Hz]; simpl.
  - repeat constructor.
  - repeat case_decide; subst.
    + constructor; [by constructor|]. constructor; [done|].
      eapply Forall_impl; [done|]. simpl. lia.
    + by constructor.
    + constructor; [done|]. apply Forall_forall. intros x [->|Hx]%elem_of_sorted_insert.
      * lia.
      * by eapply Forall_forall in Hz.
Qed.

Lemma other_end_Some v e w : other_end v e = Some w ↔ w ≠ v ∧ joins v w e.
Proof.
  unfold other_end, joins. destruct e as [a b]; simpl.
  repeat case_decide; split; intros Hw; destruct_and?; simplify_eq; try naive_solver.
Qed.

Lemma adjlist_sorted g v : StronglySorted lt (igraph_adjlist g v).
Proof.
  unfold igraph_adjlist. induction (omap (other_end v) g) as [|w l IH]; simpl.
  - constructor.
  - by apply sorted_insert_sorted.
Qed.

Lemma elem_of_adjlist g v w :
  w ∈ igraph_adjlist g v ↔ w ≠ v ∧ ∃ x, x ∈ g ∧ joins v w x.
Proof.
  unfold igraph_adjlist.
  assert (∀ l, w ∈ foldr sorted_insert [] l ↔ w ∈ l) as ->.
  { induction l as [|z l IH]; simpl; [done|].
    rewrite elem_of_sorted_insert, IH, elem_of_cons. done. }
  rewrite list_elem_of_omap. split.
  - intros (x & Hx & [? ?]%other_end_Some). eauto.
  - intros (Hw & x & Hx & Hj). exists x. split; [done|]. by apply other_end_Some.
Qed.

Lemma StronglySorted_lt_NoDup (l : list nat) : StronglySorted lt l → NoDup l.
Proof.
  induction 1 as [|x l Hs IH Hx]; constructor; [|done].
  intros Hin. eapply Forall_forall in Hx; [|done]. lia.
Qed.

Lemma demote_vec_ne level e st k x :
  x ≠ e → support st !!! e < length (vec st) →
  x ∈ vec (demote level e st) !!! k ↔ x ∈ vec st !!! k.
Proof.
  intros Hne Hl. destruct (decide (level < support st !!! e)).
  - rewrite demote_vec by done. intuition congruence.
  - by rewrite demote_no_op by lia.
Qed.

(** What [demote] does to the edge it is called on. *)
Lemma demote_self level e st :
  support st !!! e < length (vec st) →
  (level < support st !!! e →
     support (demote level e st) !!! e = support st !!! e - 1 ∧
     ∀ k, e ∈ vec (demote level e st) !!! k ↔
          k = support st !!! e - 1 ∨ (e ∈ vec st !!! k ∧ k ≠ support st !!! e)) ∧
  (support st !!! e ≤ level →
     support (demote level e st) !!! e = support st !!! e ∧
     ∀ k, e ∈ vec (demote level e st) !!! k ↔ e ∈ vec st !!! k).
Proof.
  intros Hl. split.
  - intros Hlt. rewrite demote_support, decide_True by done. split; [done|].
    intros k. rewrite demote_vec by done. intuition congruence.
  - intros Hle. by rewrite demote_no_op.
Qed.

Lemma record_edges_stores (l : list nat) st :
  stores (foldl (λ st e, record_edge e 2 st) st l) =
  reverse ((λ e, (e, 2)) <$> l) ++ stores st.
Proof.
  revert st. induction l as [|e l IH]; intros st; simpl; [done|].
  rewrite IH. simpl. rewrite reverse_cons, <- app_assoc. done.
Qed.

Lemma peel_init_stores support0 trussness0 e v :
  (e, v) ∈ stores (peel_init support0 trussness0).2 →
  v = 2 ∧ e < length support0 ∧ support0 !!! e = 0.
Proof.
  unfold peel_init, complete_level0; cbn [snd]. rewrite record_edges_stores.
  simpl. rewrite app_nil_r, elem_of_reverse, list_elem_of_fmap.
  intros (x & [= -> ->] & Hx). split; [done|].
  apply elem_of_elements in Hx. simpl in Hx. by apply fill_buckets_spec in Hx.
Qed.

Lemma visit_neighbor_stores g level f t n st :
  stores (visit_neighbor g level f t n st) = stores st.
Proof.
  unfold visit_neighbor, demote_pair.
  destruct (igraph_get_eid g f n), (igraph_get_eid g t n); try done.
  destruct (_ || _); [done|].
  destruct (demote_others level n1 (demote level n0 st)) as (_ & _ & -> & _).
  by destruct (demote_others level n0 st) as (_ & _ & -> & _).
Qed.

(** ** Triangles seen from the edges *)

(** Counting with [filter]. *)
Lemma filter_length_le {A} (P Q : A → Prop) `{∀ x, Decision (P x)} `{∀ x, Decision (Q x)}
    (l : list A) :
  (∀ x, x ∈ l → P x → Q x) → length (filter P l) ≤ length (filter Q l).
Proof.
  induction l as [|a l IH]; intros HPQ; [done|].
  rewrite !filter_cons.
  assert (length (filter P l) ≤ length (filter Q l))
    by (apply IH; intros x Hx; apply HPQ; by right).
  destruct (decide (P a)) as [HP|HP], (decide (Q a)) as [HQ|HQ]; simpl; try lia.
  exfalso. apply HQ, HPQ; [left|done].
Qed.

Lemma filter_length_ext {A} (P Q : A → Prop) `{∀ x, Decision (P x)} `{∀ x, Decision (Q x)}
    (l : list A) :
  (∀ x, x ∈ l → P x ↔ Q x) → length (filter P l) = length (filter Q l).
Proof.
  intros HPQ. apply Nat.le_antisymm; apply filter_length_le; intros x Hx; by apply HPQ.
Qed.

Lemma filter_length_split {A} (P Q R : A → Prop) `{∀ x, Decision (P x)}
    `{∀ x, Decision (Q x)} `{∀ x, Decision (R x)} (l : list A) :
  (∀ x, x ∈ l → P x ↔ Q x ∨ R x) → (∀ x, x ∈ l → Q x → R x → False) →
  length (filter P l) = length (filter Q l) + length (filter R l).
Proof.
  induction l as [|a l IH]; intros HA HB; [done|].
  rewrite !filter_cons.
  assert (length (filter P l) = length (filter Q l) + length (filter R l)) as IH'
    by (apply IH; intros x Hx; [apply HA|apply HB]; by right).
  pose proof (HA a ltac:(left)). pose proof (HB a ltac:(left)).
  destruct (decide (P a)), (decide (Q a)), (decide (R a)); simpl; try lia; tauto.
Qed.

(** One more element satisfies [Q] than [P]. *)
Lemma filter_length_flip {A} `{EqDecision A} (P Q : A → Prop)
    `{∀ x, Decision (P x)} `{∀ x, Decision (Q x)} (l : list A) (a : A) :
  NoDup l → a ∈ l → ¬ P a → Q a → (∀ x, x ∈ l → x ≠ a → P x ↔ Q x) →
  length (filter Q l) = S (length (filter P l)).
Proof.
  induction l as [|b l IH]; intros Hnd Ha HP HQ Hext; [by apply elem_of_nil in Ha|].
  apply NoDup_cons in Hnd as [Hb Hnd]. rewrite !filter_cons.
  destruct (decide (b = a)) as [->|Hne].
  - rewrite decide_True, decide_False by done. simpl. f_equal.
    apply filter_length_ext. intros x Hx. symmetry. apply Hext; [by right|].
    intros ->. done.
  - apply elem_of_cons in Ha as [->|Ha]; [done|].
    assert (length (filter Q l) = S (length (filter P l))) as IH'
      by (apply IH; try done; intros x Hx; apply Hext; by right).
    pose proof (Hext b ltac:(left) Hne).
    destruct (decide (P b)), (decide (Q b)); simpl; try lia; tauto.
Qed.

Lemma intersect_sorted_sublist l1 l2 :
  igraph_vector_int_intersect_sorted l1 l2 `sublist_of` l1.
Proof.
  revert l2. induction l1 as [|a l1 IH]; intros l2; [by destruct l2|].
  induction l2 as [|b l2 IH2]; simpl; [apply sublist_nil_l|].
  repeat case_decide.
  - apply sublist_cons, IH.
  - apply IH2.
  - apply sublist_skip, IH.
Qed.

Lemma elem_of_intersect_sorted l1 l2 x :
  StronglySorted lt l1 → StronglySorted lt l2 →
  x ∈ igraph_vector_int_intersect_sorted l1 l2 ↔ x ∈ l1 ∧ x ∈ l2.
Proof.
  intros HA. revert l2. induction HA as [|a l1 Hs1 IH Ha]; intros l2 HB; [destruct l2; set_solver|].
  induction HB as [|b l2 Hs2 IH2 Hb]; simpl; [set_solver|].
  rewrite Forall_forall in Ha, Hb.
  repeat case_decide.
  - rewrite IH by (by constructor; [|apply Forall_forall]).
    rewrite !elem_of_cons. split; [naive_solver|].
    intros [[->|?] [->|Hx]]; try (by auto with lia).
    apply Hb in Hx. lia.
  - rewrite IH2. rewrite !elem_of_cons. split; [naive_solver|].
    intros [[->|Hx] [->|?]]; try (by auto with lia).
    apply Ha in Hx. lia.
  - assert (a = b) as <- by lia. rewrite !elem_of_cons, IH by done. naive_solver.
Qed.

Lemma elem_of_common_neighbors g u v w :
  w ∈ common_neighbors g u v ↔ w ∈ igraph_adjlist g u ∧ w ∈ igraph_adjlist g v.
Proof.
  unfold common_neighbors. case_decide.
  - rewrite elem_of_intersect_sorted by apply adjlist_sorted. tauto.
  - by rewrite elem_of_intersect_sorted by apply adjlist_sorted.
Qed.

Lemma common_neighbors_NoDup g u v : NoDup (common_neighbors g u v).
Proof.
  unfold common_neighbors. case_decide.
  - eapply sublist_NoDup; [|apply intersect_sorted_sublist].
    apply StronglySorted_lt_NoDup, adjlist_sorted.
  - eapply sublist_NoDup; [|apply intersect_sorted_sublist].
    apply StronglySorted_lt_NoDup, adjlist_sorted.
Qed.

Lemma elem_of_adjlist_eid g u w :
  w ∈ igraph_adjlist g u ↔ w ≠ u ∧ is_Some (igraph_get_eid g u w).
Proof. by rewrite elem_of_adjlist, get_eid_is_Some. Qed.

(** A common neighbour of [u] and [v] is joined to both by an edge: the
    two lookups of [visit_neighbor] succeed. *)
Lemma get_eid_common g u v w :
  w ∈ common_neighbors g u v →
  w ≠ u ∧ w ≠ v ∧ is_Some (igraph_get_eid g u w) ∧ is_Some (igraph_get_eid g v w).
Proof.
  rewrite elem_of_common_neighbors, !elem_of_adjlist_eid. tauto.
Qed.

Lemma common_neighbors_sym_length g u v {P Q : nat → Prop}
    `{∀ x, Decision (P x)} `{∀ x, Decision (Q x)} :
  (∀ w, P w ↔ Q w) →
  length (filter P (common_neighbors g u v)) = length (filter Q (common_neighbors g v u)).
Proof.
  intros HPQ. rewrite (list_filter_iff P Q) by done.
  apply Permutation_length, filter_Permutation, NoDup_Permutation;
    [apply common_neighbors_NoDup..|].
  intros w. rewrite !elem_of_common_neighbors. tauto.
Qed.

Lemma eid_of_Some g a b e : igraph_get_eid g a b = Some e → eid_of g a b = e.
Proof. unfold eid_of. by intros ->. Qed.

Lemma eid_of_sym g a b : eid_of g a b = eid_of g b a.
Proof. unfold eid_of. by rewrite get_eid_sym. Qed.

Lemma eid_of_live g (support0 : list nat) a b :
  length support0 = length g → 0 < support0 !!! eid_of g a b →
  igraph_get_eid g a b = Some (eid_of g a b).
Proof.
  intros Hlen. unfold eid_of. destruct (igraph_get_eid g a b); [done|]. simpl.
  rewrite lookup_total_nat_ge by lia. lia.
Qed.

Lemma eid_of_common g u v w :
  w ∈ common_neighbors g u v →
  igraph_get_eid g u w = Some (eid_of g u w) ∧
  igraph_get_eid g v w = Some (eid_of g v w).
Proof.
  intros (_ & _ & [p1 H1] & [p2 H2])%get_eid_common.
  by rewrite (eid_of_Some _ _ _ _ H1), (eid_of_Some _ _ _ _ H2).
Qed.

Lemma common_neighbors_sym g u v w :
  w ∈ common_neighbors g u v ↔ w ∈ common_neighbors g v u.
Proof. rewrite !elem_of_common_neighbors. tauto. Qed.

(** In a triangle every vertex is a common neighbour of the other two. *)
Lemma opposite_common g u v w :
  u ≠ v → is_Some (igraph_get_eid g u v) → w ∈ common_neighbors g u v →
  v ∈ common_neighbors g u w.
Proof.
  intros Huv Hs. rewrite !elem_of_common_neighbors, !elem_of_adjlist_eid.
  intros [[? ?] [? Hvw]]. rewrite get_eid_sym in Hvw. auto.
Qed.

Lemma active_eid g e : active g e → igraph_get_eid g (igraph_edge g e).1 (igraph_edge g e).2 = Some e.
Proof. by intros [_ ?]. Qed.

(** The edge a lookup of two distinct vertices returns is active. *)
Lemma get_eid_active g a b e : a ≠ b → igraph_get_eid g a b = Some e → active g e.
Proof.
  intros Hab He. pose proof (get_eid_edge _ _ _ _ He) as [Hj|Hj]; unfold active;
    rewrite Hj; simpl; [done|]. split; [done|]. by rewrite get_eid_sym.
Qed.

Lemma wedge_count_sym g (φ : nat → nat → nat → Prop) `{∀ u v w, Decision (φ u v w)} u v :
  (∀ u v w, φ u v w ↔ φ v u w) → wedge_count g φ u v = wedge_count g φ v u.
Proof. intros Hφ. unfold wedge_count. apply common_neighbors_sym_length. intros w. apply Hφ. Qed.

Lemma wedge_count_at g (φ : nat → nat → nat → Prop) `{∀ u v w, Decision (φ u v w)} a b e :
  (∀ u v w, φ u v w ↔ φ v u w) →
  igraph_get_eid g a b = Some e →
  wedge_count g φ (igraph_edge g e).1 (igraph_edge g e).2 = wedge_count g φ a b.
Proof.
  intros Hφ He. pose proof (get_eid_edge _ _ _ _ He) as [Hj|Hj]; rewrite Hj; simpl; [done|].
  by apply wedge_count_sym.
Qed.

Lemma wedge_live_sym g support0 u v w : wedge_live g support0 u v w ↔ wedge_live g support0 v u w.
Proof. unfold wedge_live. tauto. Qed.

Lemma wedge_dead_sym g support0 out u v w :
  wedge_dead g support0 out u v w ↔ wedge_dead g support0 out v u w.
Proof. unfold wedge_dead, wedge_live. tauto. Qed.

Lemma wedge_in_sym g X u v w : wedge_in g X u v w ↔ wedge_in g X v u w.
Proof. unfold wedge_in. tauto. Qed.

(** The live triangles of an edge are those undone and those not. *)
Lemma triangles_live_split g support0 out e :
  triangles_live g support0 e =
  triangles_dead g support0 out e +
  wedge_count g (λ u v w, wedge_live g support0 u v w ∧
                          ¬ (out (eid_of g u w) v ∨ out (eid_of g v w) u))
    (igraph_edge g e).1 (igraph_edge g e).2.
Proof.
  unfold triangles_live, triangles_dead, wedge_count.
  apply filter_length_split; unfold wedge_dead.
  - intros w _. destruct (decide (out (eid_of g (igraph_edge g e).1 w) (igraph_edge g e).2
                                  ∨ out (eid_of g (igraph_edge g e).2 w) (igraph_edge g e).1));
      tauto.
  - tauto.
Qed.

Lemma truss_closed_mono g support0 k k' X :
  k ≤ k' → truss_closed g support0 k' X → truss_closed g support0 k X.
Proof. intros Hk HX e He. destruct (HX e He). split; [done|lia]. Qed.

Lemma truss_level_unique g support0 e k k' :
  truss_level g support0 e k → truss_level g support0 e k' → k = k'.
Proof.
  intros [[X [HX He]] Hn] [[X' [HX' He']] Hn'].
  destruct (Nat.lt_total k k') as [Hlt|[?|Hlt]]; [|done|]; exfalso.
  - apply Hn. exists X'. split; [|done]. eapply truss_closed_mono; [|done]. lia.
  - apply Hn'. exists X. split; [|done]. eapply truss_closed_mono; [|done]. lia.
Qed.

Lemma elem_of_edge_set (P : nat → Prop) `{∀ e, Decision (P e)} n e :
  e ∈ edge_set P n ↔ e < n ∧ P e.
Proof.
  unfold edge_set. rewrite elem_of_list_to_set, list_elem_of_filter, elem_of_seq.
  intuition lia.
Qed.

Lemma filter_length_0 {A} (P : A → Prop) `{∀ x, Decision (P x)} (l : list A) :
  (∀ x, x ∈ l → ¬ P x) → length (filter P l) = 0.
Proof.
  intros HP. induction l as [|a l IH]; [done|].
  rewrite filter_cons, decide_False by (apply HP; left).
  apply IH. intros x Hx. apply HP. by right.
Qed.

(** An edge that is not completed has a positive initial support. *)
Lemma pending_live g support0 c e :
  peel_inv g support0 c → completed c.2 !!! e = false → 0 < support0 !!! e.
Proof.
  intros Hinv Hc. pose proof (lookup_total_false_lt _ _ Hc) as He.
  rewrite (inv_len_completed _ _ _ Hinv) in He.
  pose proof (inv_support_le _ _ _ Hinv e). pose proof (inv_level _ _ _ Hinv).
  destruct (decide (in_flight c.1 e)) as [Hf|Hf].
  - destruct c as [[| |] st]; simpl in Hf; try done. subst.
    destruct (inv_seed _ _ _ Hinv _ _ _ _ _ eq_refl) as (S1 & S2 & S3 & S4 & S5 & S6 & S7 & S8).
    simpl in *. lia.
  - destruct (inv_pending _ _ _ Hinv e He Hc Hf) as [? _]. lia.
Qed.

Lemma live_lt (support0 : list nat) e : 0 < support0 !!! e → e < length support0.
Proof.
  intros H. destruct (decide (e < length support0)); [done|].
  rewrite lookup_total_nat_ge in H by lia. lia.
Qed.

(** ** The result does not depend on the order of the pops *)

Section order.
Context (g : igraph_t) (support0 : list nat).
Hypothesis Hlen : length support0 = length g.
Hypothesis Hact : ∀ e, 0 < support0 !!! e → active g e.

Lemma triangles_dead_ext out1 out2 e :
  (∀ w, w ∈ common_neighbors g (igraph_edge g e).1 (igraph_edge g e).2 →
     out1 (eid_of g (igraph_edge g e).1 w) (igraph_edge g e).2 =
     out2 (eid_of g (igraph_edge g e).1 w) (igraph_edge g e).2 ∧
     out1 (eid_of g (igraph_edge g e).2 w) (igraph_edge g e).1 =
     out2 (eid_of g (igraph_edge g e).2 w) (igraph_edge g e).1) →
  triangles_dead g support0 out1 e = triangles_dead g support0 out2 e.
Proof.
  intros H. unfold triangles_dead, wedge_count. apply filter_length_ext.
  intros w Hw. unfold wedge_dead. destruct (H w Hw) as [-> ->]. done.
Qed.

Lemma order_inv_init trussness0 : order_inv g support0 (peel_init support0 trussness0).
Proof.
  destruct (peel_init_state support0 trussness0) as (I1 & I2 & I3 & I4 & I5 & I6 & I7 & I8).
  assert ((peel_init support0 trussness0).1 = AtWhile 1) as Hpc by done.
  destruct (peel_init support0 trussness0) as [pc st]. simpl in *. subst pc.
  assert (Hcl : ∀ e, 0 < support0 !!! e → completed st !!! e = false).
  { intros e He. rewrite I6 by by apply live_lt. apply bool_decide_eq_false. lia. }
  constructor; simpl.
  - done.
  - intros e Hc He. rewrite Hcl in Hc by done. done.
  - exists (edge_set (λ e, 0 < support0 !!! e) (length support0)). split.
    + intros e [_ He]%elem_of_edge_set. split; [done|].
      assert (triangles_in g (edge_set (λ e, 0 < support0 !!! e) (length support0)) e
              = triangles_live g support0 e) as ->; [|lia].
      unfold triangles_in, triangles_live, wedge_count. apply filter_length_ext.
      intros w _. unfold wedge_in, wedge_live. rewrite !elem_of_edge_set.
      split; [tauto|]. intros [? ?]. auto using live_lt.
    + intros e Hc. apply elem_of_edge_set.
      pose proof (lookup_total_false_lt _ _ Hc) as He. rewrite I4 in He.
      split; [done|]. rewrite I6 in Hc by done. apply bool_decide_eq_false in Hc. lia.
  - intros e Hc _. rewrite I1.
    assert (triangles_dead g support0 (is_out (AtWhile 1, st)) e = 0) as ->; [|lia].
    unfold triangles_dead, wedge_count. apply filter_length_0.
    intros w _ [[H1 H2] Ho]. unfold is_out in Ho; simpl in Ho.
    rewrite !orb_false_r, !Hcl in Ho by done. tauto.
Qed.

Lemma order_inv_advance tb level st :
  peel_inv g support0 (AtWhile level, st) →
  order_inv g support0 (AtWhile level, st) →
  ¬ (level ≤ max_list support0 ∧ vec st !!! level ≠ ∅) →
  order_inv g support0 (peel_step tb g (max_list support0) (AtWhile level, st)).
Proof.
  intros Hinv [Hfl Hco [X [HX HXp]] Hde] Hn.
  pose proof (peel_step_inv tb _ _ _ Hinv) as Hinv'. revert Hinv'.
  pose proof (inv_level _ _ _ Hinv) as Hlev.
  unfold peel_step; simpl in *. case_decide; [|case_decide]; intros Hinv'.
  - assert (level = S (max_list support0)) as -> by lia.
    constructor; simpl; try done. by exists X.
  - constructor; simpl; try done.
    + set (P := edge_set (λ e, completed st !!! e = false) (length support0)).
      exists P. split.
      * intros e [He Hc]%elem_of_edge_set.
        split; [by apply (pending_live _ _ _ _ Hinv)|].
        destruct (inv_pending _ _ _ Hinv' e He Hc) as [Hs _]; [simpl; tauto|].
        destruct (Hde e Hc) as [_ Heq]; [tauto|]. simpl in Hs.
        rewrite (triangles_live_split g support0 (is_out (AtWhile level, st)) e).
        assert (wedge_count g
          (λ u v w, wedge_live g support0 u v w ∧
             ¬ (is_out (AtWhile level, st) (eid_of g u w) v
                ∨ is_out (AtWhile level, st) (eid_of g v w) u))
          (igraph_edge g e).1 (igraph_edge g e).2 ≤ triangles_in g P e) as Hle; [|lia].
        unfold triangles_in, wedge_count. apply filter_length_le.
        intros w _ [_ Ho]. unfold is_out in Ho; simpl in Ho.
        rewrite !orb_false_r in Ho. unfold wedge_in, P. rewrite !elem_of_edge_set.
        rewrite <- (inv_len_completed _ _ _ Hinv). simpl.
        destruct (completed st !!! eid_of g (igraph_edge g e).1 w) eqn:E1; [simpl in Ho; tauto|].
        destruct (completed st !!! eid_of g (igraph_edge g e).2 w) eqn:E2; [simpl in Ho; tauto|].
        split_and!; eauto using lookup_total_false_lt.
      * intros e Hc. apply elem_of_edge_set. split; [|done].
        rewrite <- (inv_len_completed _ _ _ Hinv). by apply lookup_total_false_lt.
    + intros e Hc _. destruct (Hde e Hc) as [H1 H2]; [tauto|].
      split; [done|]. intros Hlt. apply H2. lia.
  - exfalso. apply Hn. split; [lia|done].
Qed.

Lemma order_inv_record tb level seed f t st :
  peel_inv g support0 (AtFor level seed f t [], st) →
  order_inv g support0 (AtFor level seed f t [], st) →
  order_inv g support0 (peel_step tb g (max_list support0) (AtFor level seed f t [], st)).
Proof.
  intros Hinv [Hfl Hco [X [HX HXp]] Hde].
  destruct (inv_seed _ _ _ Hinv _ _ _ _ _ eq_refl) as (S1 & S2 & S3 & S4 & S5 & S6 & S7 & S8).
  destruct (Hfl _ _ _ _ _ eq_refl) as (F1 & F2 & F3).
  pose proof (inv_len_completed _ _ _ Hinv) as Hlc.
  unfold peel_step; simpl in *.
  constructor; simpl; try done.
  - intros e Hc He. rewrite list_lookup_total_insert in Hc.
    case_decide as Hd; [|by apply Hco]. destruct Hd as [<- _]. by rewrite S4.
  - exists X. split; [done|]. intros e Hc. rewrite list_lookup_total_insert in Hc.
    case_decide; [done|]. by apply HXp.
  - intros e Hc _. rewrite list_lookup_total_insert in Hc.
    case_decide as Hd; [done|].
    assert (e ≠ seed) by (intros ->; apply Hd; split; [done|lia]).
    rewrite (triangles_dead_ext _ (is_out (AtFor level seed f t [], st))); [by apply Hde|].
    assert (∀ p x, is_out (AtWhile level, record_edge seed (level + 2) st) p x
                   = is_out (AtFor level seed f t [], st) p x) as Ho; [|by split; apply Ho].
    intros p x. unfold is_out; simpl. rewrite list_lookup_total_insert.
    destruct (decide (p = seed)) as [->|Hp].
    + rewrite decide_True by (split; [done|lia]). rewrite S3. simpl.
      symmetry. apply bool_decide_eq_true. split; [done|]. apply not_elem_of_nil.
    + rewrite decide_False by (intros [? _]; congruence).
      rewrite (bool_decide_eq_false_2 (p = seed ∧ _)) by tauto. done.
Qed.

(** The edge that closes a triangle over [u], [v] at [w] has [v] among
    the common neighbours of its own end points. *)
Lemma partner_opposite u v w p :
  u ≠ v → is_Some (igraph_get_eid g u v) → w ∈ common_neighbors g u v →
  eid_of g u w = p →
  v ∈ common_neighbors g (igraph_edge g p).1 (igraph_edge g p).2.
Proof.
  intros Huv Hs Hw <-.
  pose proof (opposite_common _ _ _ _ Huv Hs Hw) as Hv.
  destruct (eid_of_common _ _ _ _ Hw) as [H1 _].
  destruct (get_eid_edge _ _ _ _ H1) as [-> | ->]; simpl; [done|].
  by apply common_neighbors_sym.
Qed.

Lemma order_inv_pop tb level st :
  peel_inv g support0 (AtWhile level, st) →
  order_inv g support0 (AtWhile level, st) →
  level ≤ max_list support0 →
  vec st !!! level ≠ ∅ →
  order_inv g support0 (peel_step tb g (max_list support0) (AtWhile level, st)).
Proof.
  intros Hinv [Hfl Hco [X [HX HXp]] Hde] Hl Hne. unfold peel_step; simpl in *.
  rewrite decide_False by lia. rewrite decide_False by done.
  set (seed := set_begin tb (vec st !!! level)).
  assert (Hin : seed ∈ vec st !!! level) by by apply set_begin_elem.
  destruct (popped_edge _ _ _ _ _ Hinv Hin) as (Hs & Hc & Hsup).
  constructor; simpl; try done.
  - intros l s f t ns [= <- <- <- <- <-]. split; [by destruct (igraph_edge g seed)|].
    split; [by exists []|]. split; [exists X; auto|].
    intros [Y [HY HsY]].
    assert (Hsub : ∀ e, e ∈ Y → completed st !!! e = false).
    { intros e He. destruct (completed st !!! e) eqn:Ec; [|done]. exfalso.
      destruct (HY e He) as [Hlive _].
      destruct (Hco e Ec Hlive) as [_ Hno]. apply Hno. exists Y. split; [|done].
      eapply truss_closed_mono; [|done].
      destruct (inv_completed _ _ _ Hinv e (live_lt _ _ Hlive) Ec) as (Hle & _).
      simpl in Hle. lia. }
    destruct (HY seed HsY) as [_ Hcl].
    destruct (Hde seed Hc) as [Hd1 _]; [tauto|].
    rewrite (triangles_live_split g support0 (is_out (AtWhile level, st)) seed) in Hcl.
    assert (triangles_in g Y seed ≤ wedge_count g
          (λ u v w, wedge_live g support0 u v w ∧
             ¬ (is_out (AtWhile level, st) (eid_of g u w) v
                ∨ is_out (AtWhile level, st) (eid_of g v w) u))
          (igraph_edge g seed).1 (igraph_edge g seed).2) as Hle; [|lia].
    unfold triangles_in, wedge_count. apply filter_length_le.
    intros w _ [H1 H2]. split.
    + split; [by destruct (HY _ H1)|by destruct (HY _ H2)].
    + unfold is_out; simpl. rewrite !orb_false_r, (Hsub _ H1), (Hsub _ H2). tauto.
  - exists X. auto.
  - intros e Hce Hes.
    rewrite (triangles_dead_ext _ (is_out (AtWhile level, st))); [apply Hde; tauto|].
    pose proof (Hact e (pending_live _ _ _ _ Hinv Hce)) as [Hne' Hae].
    intros w Hw. unfold is_out; simpl. rewrite !orb_false_r.
    split; (rewrite bool_decide_eq_false_2; [by rewrite orb_false_r|]); intros [Hp Hx]; apply Hx.
    + eapply partner_opposite; [exact Hne'|by rewrite Hae|exact Hw|exact Hp].
    + eapply (partner_opposite _ _ w); [| |by apply common_neighbors_sym|exact Hp].
      * congruence.
      * by rewrite get_eid_sym, Hae.
Qed.

Lemma demote_pair_support_both level e1 e2 st x :
  completed st !!! e1 = false → completed st !!! e2 = false → e1 ≠ e2 →
  support (demote_pair level e1 e2 st) !!! x =
  if decide (x = e1 ∨ x = e2)
  then (if decide (level < support st !!! x) then support st !!! x - 1 else support st !!! x)
  else support st !!! x.
Proof.
  intros H1 H2 Hne. unfold demote_pair. rewrite H1, H2. simpl.
  destruct (decide (x = e2)) as [->|Hx2].
  - rewrite decide_True by auto.
    assert (support (demote level e1 st) !!! e2 = support st !!! e2) as Hs
      by (by apply demote_support_ne).
    case_decide.
    + rewrite demote_support by (by rewrite Hs). rewrite decide_True by done.
      by rewrite Hs.
    + rewrite demote_no_op by (rewrite Hs; lia). done.
  - rewrite demote_support_ne by done.
    destruct (decide (x = e1)) as [->|Hx1].
    + rewrite decide_True by auto. case_decide.
      * by rewrite demote_support, decide_True.
      * by rewrite demote_no_op by lia.
    + rewrite decide_False by tauto. by apply demote_support_ne.
Qed.

Lemma demote_pair_skip level e1 e2 st :
  completed st !!! e1 = true ∨ completed st !!! e2 = true →
  demote_pair level e1 e2 st = st.
Proof. unfold demote_pair. intros [-> | ->]; [done|]. by rewrite orb_true_r. Qed.

(** Visiting the common neighbour [n] of the popped edge undoes one
    triangle of the edge from [f] to [n], if the third edge still stood
    for it, and none otherwise. *)
Lemma dead_flip (out1 out2 : nat → nat → bool) seed f t n e1 e2 :
  igraph_get_eid g f t = Some seed → f ≠ t → n ∈ common_neighbors g f t →
  igraph_get_eid g f n = Some e1 → igraph_get_eid g t n = Some e2 →
  0 < support0 !!! seed →
  (∀ p x, out2 p x = out1 p x || bool_decide (p = seed ∧ x = n)) →
  out1 seed n = false →
  triangles_dead g support0 out2 e1 =
  triangles_dead g support0 out1 e1 +
  (if decide (0 < support0 !!! e2 ∧ out1 e2 f = false) then 1 else 0).
Proof.
  intros Hs Hft Hn H1 H2 Hlive Hout Hsn.
  destruct (get_eid_common _ _ _ _ Hn) as (Hnf & Hnt & _ & _).
  assert (Ht : t ∈ common_neighbors g f n)
    by (apply opposite_common; [done|by rewrite Hs|done]).
  unfold triangles_dead.
  rewrite (wedge_count_at g (wedge_dead g support0 out2) f n e1)
    by (done || apply wedge_dead_sym).
  rewrite (wedge_count_at g (wedge_dead g support0 out1) f n e1)
    by (done || apply wedge_dead_sym).
  unfold wedge_count.
  assert (Hst : eid_of g f t = seed) by by apply eid_of_Some.
  assert (Het : eid_of g n t = e2) by (rewrite eid_of_sym; by apply eid_of_Some).
  assert (Ha : ∀ w, w ∈ common_neighbors g f n → w ≠ t →
            wedge_dead g support0 out1 f n w ↔ wedge_dead g support0 out2 f n w).
  { intros w Hw Hwt. unfold wedge_dead. rewrite !Hout.
    rewrite (bool_decide_eq_false_2 (eid_of g f w = seed ∧ _)).
    - rewrite (bool_decide_eq_false_2 (eid_of g n w = seed ∧ _)) by (intros [_ ?]; congruence).
      by rewrite !orb_false_r.
    - intros [Hp _]. destruct (eid_of_common _ _ _ _ Hw) as [Hfw _]. rewrite Hp in Hfw.
      destruct (get_eid_inj _ _ _ _ _ _ Hfw Hs) as [[_ ?]|[? _]]; congruence. }
  assert (Hb1 : wedge_dead g support0 out1 f n t ↔ 0 < support0 !!! e2 ∧ out1 e2 f).
  { unfold wedge_dead, wedge_live. rewrite Hst, Het, Hsn. simpl. tauto. }
  assert (Hb2 : wedge_dead g support0 out2 f n t ↔ 0 < support0 !!! e2).
  { unfold wedge_dead, wedge_live. rewrite Hst, Het, (Hout seed n), Hsn.
    rewrite bool_decide_eq_true_2 by done. simpl. tauto. }
  case_decide as Hd.
  - rewrite Nat.add_1_r.
    apply (filter_length_flip _ _ _ t); [apply common_neighbors_NoDup|done| | |done].
    + rewrite Hb1. destruct Hd as [_ ->]. simpl. tauto.
    + rewrite Hb2. tauto.
  - rewrite Nat.add_0_r. apply filter_length_ext. intros w Hw.
    destruct (decide (w = t)) as [->|Hwt]; [|symmetry; by apply Ha].
    rewrite Hb1, Hb2. destruct (out1 e2 f) eqn:E; simpl; [tauto|]. split; [|tauto].
    intros ?. exfalso. apply Hd. done.
Qed.

(** It undoes no triangle of the other edges. *)
Lemma dead_other (out1 out2 : nat → nat → bool) seed f t n e1 e2 e :
  igraph_get_eid g f t = Some seed → f ≠ t →
  igraph_get_eid g f n = Some e1 → igraph_get_eid g t n = Some e2 →
  (∀ p x, out2 p x = out1 p x || bool_decide (p = seed ∧ x = n)) →
  active g e → e ≠ e1 → e ≠ e2 →
  triangles_dead g support0 out2 e = triangles_dead g support0 out1 e.
Proof.
  intros Hs Hft H1 H2 Hout [Huv He] Hne1 Hne2.
  apply triangles_dead_ext. intros w Hw. rewrite !Hout.
  destruct (eid_of_common _ _ _ _ Hw) as [Huw Hvw].
  split; (rewrite bool_decide_eq_false_2; [by rewrite orb_false_r|]); intros [Hp Hx].
  - rewrite Hp in Huw. rewrite Hx in He.
    destruct (get_eid_inj _ _ _ _ _ _ Huw Hs) as [[Hu _]|[Hu _]]; rewrite Hu in He; congruence.
  - rewrite Hp in Hvw. rewrite Hx, get_eid_sym in He.
    destruct (get_eid_inj _ _ _ _ _ _ Hvw Hs) as [[Hv _]|[Hv _]]; rewrite Hv in He; congruence.
Qed.

Lemma order_inv_visit tb level seed f t n ns st :
  peel_inv g support0 (AtFor level seed f t (n :: ns), st) →
  order_inv g support0 (AtFor level seed f t (n :: ns), st) →
  order_inv g support0 (peel_step tb g (max_list support0) (AtFor level seed f t (n :: ns), st)).
Proof.
  intros Hinv [Hfl Hco [X [HX HXp]] Hde].
  destruct (inv_seed _ _ _ Hinv _ _ _ _ _ eq_refl) as (S1 & S2 & S3 & S4 & S5 & S6 & S7 & S8).
  destruct (Hfl _ _ _ _ _ eq_refl) as (F1 & [visited F2] & F3).
  simpl in *.
  pose proof (pending_live _ _ _ _ Hinv S3) as Hlive.
  destruct (Hact seed Hlive) as [Hft Hs]. rewrite F1 in Hft, Hs. simpl in Hft, Hs.
  assert (Hn : n ∈ common_neighbors g f t) by (rewrite F2; set_solver).
  assert (Hnns : n ∉ ns).
  { pose proof (common_neighbors_NoDup g f t) as Hnd. rewrite F2 in Hnd.
    apply NoDup_app in Hnd as (_ & _ & Hnd). by apply NoDup_cons in Hnd as [? _]. }
  destruct (get_eid_common _ _ _ _ Hn) as (Hnf & Hnt & [e1 H1] & [e2 H2]).
  assert (e1 ≠ e2)
    by (intros ->; destruct (get_eid_inj _ _ _ _ _ _ H1 H2) as [[? _]|[? ?]]; congruence).
  assert (e1 ≠ seed)
    by (intros ->; destruct (get_eid_inj _ _ _ _ _ _ H1 Hs) as [[_ ?]|[? _]]; congruence).
  assert (e2 ≠ seed)
    by (intros ->; destruct (get_eid_inj _ _ _ _ _ _ H2 Hs) as [[? _]|[_ ?]]; congruence).
  unfold peel_step; simpl. unfold visit_neighbor. rewrite H1, H2.
  set (c := (AtFor level seed f t (n :: ns), st)).
  set (st' := demote_pair level e1 e2 st).
  set (c' := (AtFor level seed f t ns, st')).
  assert (Hc' : completed st' = completed st) by apply demote_pair_completed.
  assert (Hout : ∀ p x, is_out c' p x = is_out c p x || bool_decide (p = seed ∧ x = n)).
  { intros p x. unfold is_out; simpl. rewrite Hc'.
    destruct (completed st !!! p); simpl; [done|].
    destruct (decide (p = seed)) as [->|Hp].
    - destruct (decide (x = n)) as [->|Hx].
      + rewrite (bool_decide_eq_true_2 (seed = seed ∧ n ∉ ns)) by done.
        rewrite (bool_decide_eq_true_2 (seed = seed ∧ n = n)) by done.
        by rewrite orb_true_r.
      + rewrite (bool_decide_eq_false_2 (seed = seed ∧ x = n)) by tauto.
        rewrite orb_false_r. apply bool_decide_ext. rewrite not_elem_of_cons. tauto.
    - rewrite !(bool_decide_eq_false_2 (p = seed ∧ _)) by tauto. done. }
  assert (Hsn : is_out c seed n = false).
  { unfold is_out; simpl. rewrite S3. simpl. apply bool_decide_eq_false.
    intros [_ Hx]. apply Hx. left. }
  assert (Ho : ∀ e x, e ≠ seed → is_out c e x = completed st !!! e).
  { intros e x He. unfold is_out; simpl.
    rewrite (bool_decide_eq_false_2 (e = seed ∧ _)) by tauto. by rewrite orb_false_r. }
  constructor; simpl.
  - intros l s f' t' ns' [= <- <- <- <- <-]. split; [done|]. split; [|done].
    exists (visited ++ [n]). by rewrite <- app_assoc.
  - intros e Hc He. rewrite Hc' in Hc. unfold st'.
    rewrite demote_pair_support by done. by apply Hco.
  - exists X. split; [done|]. intros e Hc. rewrite Hc' in Hc. by apply HXp.
  - intros e Hc Hes. rewrite Hc' in Hc. destruct (Hde e Hc Hes) as [D1 D2].
    pose proof (pending_live _ _ _ _ Hinv Hc) as Hle.
    destruct (inv_pending _ _ _ Hinv e (live_lt _ _ Hle) Hc Hes) as [Hlev _]. simpl in Hlev.
    fold c' c in D1, D2 |- *.
    assert (Hsup : support st' !!! e =
      if decide ((e = e1 ∨ e = e2) ∧ completed st !!! e1 = false
                 ∧ completed st !!! e2 = false ∧ level < support st !!! e)
      then support st !!! e - 1 else support st !!! e).
    { unfold st'. destruct (completed st !!! e1) eqn:E1.
      - rewrite demote_pair_skip by auto. rewrite decide_False; [done|]. intros (_ & ? & _). done.
      - destruct (completed st !!! e2) eqn:E2.
        + rewrite demote_pair_skip by auto. rewrite decide_False; [done|].
          intros (_ & _ & ? & _). done.
        + rewrite demote_pair_support_both by done.
          repeat case_decide; try done; tauto. }
    assert (Hdead : triangles_dead g support0 (is_out c') e =
      triangles_dead g support0 (is_out c) e +
      if decide ((e = e1 ∨ e = e2) ∧ completed st !!! e1 = false
                 ∧ completed st !!! e2 = false) then 1 else 0).
    { destruct (decide (e = e1)) as [->|Hne1]; [|destruct (decide (e = e2)) as [->|Hne2]].
      - rewrite (dead_flip (is_out c) (is_out c') seed f t n e1 e2) by done.
        f_equal. rewrite Ho by done.
        destruct (completed st !!! e2) eqn:E2.
        + rewrite !decide_False; [done| |]; intros H'; destruct_and?; done.
        + pose proof (pending_live _ _ _ _ Hinv E2). rewrite !decide_True; auto.
      - rewrite (dead_flip (is_out c) (is_out c') seed t f n e2 e1);
          [|by rewrite get_eid_sym|done|by apply common_neighbors_sym|done..].
        f_equal. rewrite Ho by done.
        destruct (completed st !!! e1) eqn:E1.
        + rewrite !decide_False; [done| |]; intros H'; destruct_and?; done.
        + pose proof (pending_live _ _ _ _ Hinv E1). rewrite !decide_True; auto.
      - rewrite (dead_other (is_out c) (is_out c') seed f t n e1 e2 e) by auto.
        rewrite decide_False by tauto. lia. }
    rewrite Hsup, Hdead.
    destruct (decide ((e = e1 ∨ e = e2) ∧ completed st !!! e1 = false
                      ∧ completed st !!! e2 = false)) as [Hd|Hd].
    + destruct (decide (level < support st !!! e)).
      * rewrite decide_True by tauto. lia.
      * rewrite decide_False by tauto. lia.
    + rewrite decide_False by tauto. rewrite Nat.add_0_r. done.
Qed.

Lemma order_inv_step tb c :
  peel_inv g support0 c → order_inv g support0 c →
  order_inv g support0 (peel_step tb g (max_list support0) c).
Proof.
  destruct c as [[level|level seed f t [|n ns]|] st]; intros Hinv Hord.
  - destruct (decide (level ≤ max_list support0 ∧ vec st !!! level ≠ ∅)) as [[H1 H2]|H].
    + by apply order_inv_pop.
    + by apply order_inv_advance.
  - by apply order_inv_record.
  - by apply order_inv_visit.
  - done.
Qed.

Lemma order_inv_reachable tb trussness0 c :
  peel_reachable tb g support0 trussness0 c → order_inv g support0 c.
Proof.
  intros [k ->]. unfold peel_run, igraph_vector_int_max.
  assert (peel_inv g support0 (Nat.iter k (peel_step tb g (max_list support0))
                                 (peel_init support0 trussness0)) ∧
          order_inv g support0 (Nat.iter k (peel_step tb g (max_list support0))
                                  (peel_init support0 trussness0))) as [_ ?]; [|done].
  induction k as [|k [IH1 IH2]]; simpl.
  - split; [apply peel_init_inv|apply order_inv_init].
  - split; [by apply peel_step_inv|by apply order_inv_step].
Qed.

(** What [igraph_i_trussness] returns, with no reference to the order of
    the pops: 2 for an edge of initial support 0, and the [truss_level]
    plus 2 for every other edge. *)
Lemma peel_result_canonical tb trussness0 :
  support0 ≠ [] →
  ∃ res, igraph_i_trussness tb g support0 trussness0 = Some res ∧
         length res = length support0 ∧
         ∀ e, e < length support0 →
           (support0 !!! e = 0 → res !!! e = 2) ∧
           (0 < support0 !!! e →
            ∃ k, res !!! e = k + 2 ∧ truss_level g support0 e k).
Proof.
  intros Hne.
  destruct (igraph_i_trussness_returns tb g support0 trussness0) as (st & Hr & ->);
    [done|lia|].
  pose proof (peel_reachable_inv _ _ _ _ _ Hr) as Hinv.
  pose proof (order_inv_reachable _ _ _ Hr) as Hord.
  eexists; split; [done|]. split; [apply (inv_len_trussness _ _ _ Hinv)|].
  intros e He. pose proof (peel_end_completed _ _ _ _ Hinv He) as Hc.
  destruct (inv_completed _ _ _ Hinv e He Hc) as (_ & _ & Ht & _).
  pose proof (inv_support_le _ _ _ Hinv e). simpl in *. split.
  - intros Hz. rewrite Ht. lia.
  - intros Hp. exists (support st !!! e). split; [done|].
    by apply (oinv_completed _ _ _ Hord).
Qed.

(** The peeler returns the same vector for any two tie-breaks and any
    two vectors it is given to fill. *)
Lemma peel_result_unique tb1 tb2 trussness1 trussness2 :
  igraph_i_trussness tb1 g support0 trussness1 =
  igraph_i_trussness tb2 g support0 trussness2.
Proof.
  destruct (decide (support0 = [])) as [->|Hne]; [done|].
  destruct (peel_result_canonical tb1 trussness1 Hne) as (r1 & -> & L1 & H1).
  destruct (peel_result_canonical tb2 trussness2 Hne) as (r2 & -> & L2 & H2).
  f_equal. apply list_eq. intros e.
  destruct (decide (e < length support0)) as [He|He].
  - rewrite !list_lookup_lookup_total_lt by lia. f_equal.
    destruct (H1 e He) as [A1 B1], (H2 e He) as [A2 B2].
    destruct (decide (support0 !!! e = 0)) as [Hz|Hz].
    + by rewrite A1, A2.
    + destruct B1 as (k1 & -> & T1); [lia|]. destruct B2 as (k2 & -> & T2); [lia|].
      by rewrite (truss_level_unique _ _ _ _ _ T1 T2).
  - rewrite !lookup_ge_None_2 by lia. done.
Qed.
End order.

(** The edges that the support builder counts for are active. *)
Lemma build_support_active g ts support0 :
  Forall (is_triangle g) ts →
  build_support g (flatten_triangles ts) = Some support0 →
  length support0 = length g ∧ ∀ e, 0 < support0 !!! e → active g e.
Proof.
  intros Hts Hb. destruct (build_support_Some g ts Hts) as (eid & Hs & Hcount).
  rewrite Hb in Hs. injection Hs as ->. unfold igraph_ecount.
  assert (Hlen : length (igraph_truss_i_compute_support eid (replicate (length g) 0)) = length g)
    by (by rewrite compute_support_length, length_replicate).
  split; [done|].
  intros e He. assert (e < length g) as Hlt.
  { destruct (decide (e < length g)); [done|].
    rewrite lookup_total_nat_ge in He by lia. lia. }
  rewrite compute_support_lookup in He by (by rewrite length_replicate).
  rewrite lookup_total_replicate_2, Hcount in He by done.
  destruct (filter (triangle_edge g e) ts) as [|[[a b] c] l] eqn:E; [simpl in He; lia|].
  assert ((a, b, c) ∈ filter (triangle_edge g e) ts) as Hin by (rewrite E; left).
  apply list_elem_of_filter in Hin as [Hte Hin].
  eapply Forall_forall in Hts; [|done].
  destruct Hts as (Hab & Hac & Hbc & _). simpl in *.
  destruct Hte as [H|[H|H]]; simpl in H;
    [apply (get_eid_active g a b)|apply (get_eid_active g a c)|apply (get_eid_active g b c)];
    done.
Qed.

(** An edge of initial support 0 is completed all along the run and is in
    bucket 0. *)
Lemma level0_bucket tb g support0 trussness0 c e :
  peel_reachable tb g support0 trussness0 c →
  e < length support0 → support0 !!! e = 0 →
  completed c.2 !!! e = true ∧ e ∈ vec c.2 !!! 0.
Proof.
  intros Hinv%peel_reachable_inv He Hz.
  destruct (completed c.2 !!! e) eqn:Hc.
  - split; [done|]. destruct (inv_completed _ _ _ Hinv e He Hc) as (_ & H & _).
    apply H. pose proof (inv_support_le _ _ _ Hinv e). lia.
  - pose proof (pending_live g support0 c e Hinv Hc). lia.
Qed.

(** ** The cases the design document lists *)

Example trussness_triangle :
  igraph_trussness least_first triangle_graph [0; 1; 2] [] = Some [3; 3; 3].
Proof. vm_compute. reflexivity. Qed.

Example trussness_K4 :
  igraph_trussness greatest_first [(0, 1); (0, 2); (0, 3); (1, 2); (1, 3); (2, 3)]
    [0; 1; 2; 0; 1; 3; 0; 2; 3; 1; 2; 3] [] = Some [4; 4; 4; 4; 4; 4].
Proof. vm_compute. reflexivity. Qed.

Example trussness_K4_and_edge :
  igraph_trussness least_first [(0, 1); (0, 2); (0, 3); (1, 2); (1, 3); (2, 3); (4, 5)]
    [0; 1; 2; 0; 1; 3; 0; 2; 3; 1; 2; 3] [] = Some [4; 4; 4; 4; 4; 4; 2].
Proof. vm_compute. reflexivity. Qed.

Example trussness_kite :
  igraph_trussness least_first kite_graph [0; 1; 2; 1; 2; 3] [] = Some [3; 3; 3; 3; 3].
Proof. vm_compute. reflexivity. Qed.

Example trussness_unit_test :
  igraph_trussness least_first unit_test_graph unit_test_triangles [] =
  Some [5; 5; 5; 5; 5; 5; 5; 5; 5; 5; 3; 3; 3; 3; 3; 4; 4; 4; 3; 2; 3; 4; 4; 4; 2].
Proof. vm_compute. reflexivity. Qed.

(** For an active edge, to be one of the three edges a triangle resolves
    to is to have both end points among its vertices. *)
Lemma triangle_edge_endpoints g e a b c :
  active g e → is_triangle g (a, b, c) →
  triangle_edge g e (a, b, c) ↔
  ((igraph_edge g e).1 = a ∨ (igraph_edge g e).1 = b ∨ (igraph_edge g e).1 = c) ∧
  ((igraph_edge g e).2 = a ∨ (igraph_edge g e).2 = b ∨ (igraph_edge g e).2 = c).
Proof.
  intros [Huv He] (Hab & Hac & Hbc & _). unfold triangle_edge. simpl in *. split.
  - intros [H|[H|H]]; apply get_eid_edge in H as [-> | ->]; simpl; tauto.
  - intros [[Hu|[Hu|Hu]] [Hv|[Hv|Hv]]]; rewrite Hu, Hv in He, Huv; try done;
      rewrite ?(get_eid_sym g b a), ?(get_eid_sym g c a), ?(get_eid_sym g c b) in He; tauto.
Qed.

(** ** Every access is in range *)

(** At every point of a run the next move indexes its vectors in range:
    the level is a bucket index and the popped edge an edge id; both
    lookups of [visit_neighbor] succeed and return edge ids; every support
    is a bucket index. *)
Lemma peel_access_in_range tb g support0 trussness0 c :
  length support0 = length g →
  peel_reachable tb g support0 trussness0 c →
  length (support c.2) = length g ∧ length (completed c.2) = length g ∧
  length (trussness c.2) = length g ∧
  (∀ e, support c.2 !!! e < length (vec c.2)) ∧
  match c.1 with
  | AtWhile level =>
      level ≤ igraph_vector_int_max support0 →
      level < length (vec c.2) ∧
      (vec c.2 !!! level ≠ ∅ → set_begin tb (vec c.2 !!! level) < length g)
  | AtFor level seed f t (n :: ns) =>
      ∃ e1 e2, igraph_get_eid g f n = Some e1 ∧ igraph_get_eid g t n = Some e2 ∧
               e1 < length g ∧ e2 < length g
  | AtFor level seed f t [] => seed < length g
  | AtEnd => True
  end.
Proof.
  intros Hlen Hinv%peel_reachable_inv. unfold igraph_vector_int_max.
  pose proof (inv_len_vec _ _ _ Hinv) as Hv.
  split_and!.
  - by rewrite (inv_len_support _ _ _ Hinv).
  - by rewrite (inv_len_completed _ _ _ Hinv).
  - by rewrite (inv_len_trussness _ _ _ Hinv).
  - intros e. pose proof (inv_support_le _ _ _ Hinv e).
    pose proof (lookup_total_le_max_list support0 e). lia.
  - destruct c as [[level|level seed f t [|n ns]|] st]; simpl in *; [| | |done].
    + intros Hl. split; [lia|]. intros Hne.
      destruct (popped_edge _ _ _ _ (set_begin tb (vec st !!! level)) Hinv) as [? _];
        [by apply set_begin_elem|lia].
    + destruct (inv_seed _ _ _ Hinv _ _ _ _ _ eq_refl) as (_ & ? & _). lia.
    + destruct (inv_seed _ _ _ Hinv _ _ _ _ _ eq_refl) as (_ & _ & _ & _ & _ & _ & _ & [vis Hcn]).
      assert (Hn : n ∈ common_neighbors g f t) by (rewrite Hcn; set_solver).
      destruct (get_eid_common _ _ _ _ Hn) as (_ & _ & [e1 H1] & [e2 H2]).
      exists e1, e2. split_and!; [done..|by eapply get_eid_lt|by eapply get_eid_lt].
Qed.

(** * The statements of the design document *)

(** C1. When the edge popped at [level] closes a triangle with [e1] and
    [e2]: if one of the two is completed the state is left as it is; if
    neither is, each of the two whose support is above [level] has its
    support lowered by one and goes from the bucket of its old support to
    the bucket of its new support, and each whose support is not above
    [level] keeps its support and its bucket. *)
Theorem demotion_rule (tb : tie_break) (g : igraph_t) (max level seed f t n : nat)
    (ns : list nat) (st : peel_state) (e1 e2 : nat) :
  igraph_get_eid g f n = Some e1 →
  igraph_get_eid g t n = Some e2 →
  e1 ≠ e2 →
  support st !!! e1 < length (vec st) →
  support st !!! e2 < length (vec st) →
  let st' := (peel_step tb g max (AtFor level seed f t (n :: ns), st)).2 in
  (completed st !!! e1 = true ∨ completed st !!! e2 = true → st' = st) ∧
  (completed st !!! e1 = false ∧ completed st !!! e2 = false →
   ∀ e, e = e1 ∨ e = e2 →
     (level < support st !!! e →
        support st' !!! e = support st !!! e - 1 ∧
        ∀ k, e ∈ vec st' !!! k ↔
             k = support st !!! e - 1 ∨ (e ∈ vec st !!! k ∧ k ≠ support st !!! e)) ∧
     (support st !!! e ≤ level →
        support st' !!! e = support st !!! e ∧
        ∀ k, e ∈ vec st' !!! k ↔ e ∈ vec st !!! k)).
Proof.
  intros H1 H2 Hne Hl1 Hl2. unfold peel_step; simpl.
  unfold visit_neighbor. rewrite H1, H2. unfold demote_pair. split.
  - intros [-> | ->]; [done|]. by rewrite orb_true_r.
  - intros [-> ->]. simpl.
    destruct (demote_others level e1 st) as (_ & _ & _ & _ & Hv1).
    assert (Hs2 : support (demote level e1 st) !!! e2 = support st !!! e2)
      by (by apply demote_support_ne).
    assert (Hl2' : support (demote level e1 st) !!! e2 < length (vec (demote level e1 st)))
      by (by rewrite Hs2, Hv1).
    intros e [-> | ->].
    + destruct (demote_self level e1 st Hl1) as [A B].
      rewrite demote_support_ne by done.
      split.
      * intros Hlt. destruct (A Hlt) as [A1 A2]. split; [done|].
        intros k. by rewrite demote_vec_ne, A2.
      * intros Hle. destruct (B Hle) as [B1 B2]. split; [done|].
        intros k. by rewrite demote_vec_ne, B2.
    + destruct (demote_self level e2 (demote level e1 st) Hl2') as [A B].
      rewrite Hs2 in A, B.
      assert (Hm : ∀ k, e2 ∈ vec (demote level e1 st) !!! k ↔ e2 ∈ vec st !!! k)
        by (intros k; by apply demote_vec_ne).
      split.
      * intros Hlt. destruct (A Hlt) as [A1 A2]. split; [done|].
        intros k. by rewrite A2, Hm.
      * intros Hle. destruct (B Hle) as [B1 B2]. split; [done|].
        intros k. by rewrite B2, Hm.
Qed.

Lemma demotion_rule_witness :
  kite_config.1 = AtFor 1 0 0 1 [2] ∧
  support kite_config.2 !!! 2 = 2 ∧
  support (peel_step least_first kite_graph 2 kite_config).2 !!! 2 = 1 ∧
  2 ∈ vec (peel_step least_first kite_graph 2 kite_config).2 !!! 1 ∧
  support (peel_step least_first kite_graph 2 kite_config).2 !!! 1 = 1.
Proof.
  assert (E : kite_config = (AtFor 1 0 0 1 [2], kite_config.2)) by (vm_compute; reflexivity).
  assert (S2 : support kite_config.2 !!! 2 = 2) by (vm_compute; reflexivity).
  assert (S1 : support kite_config.2 !!! 1 = 1) by (vm_compute; reflexivity).
  destruct (demotion_rule least_first kite_graph 2 1 0 0 1 2 [] kite_config.2 1 2)
    as [_ H].
  - vm_compute; reflexivity.
  - vm_compute; reflexivity.
  - lia.
  - vm_compute; lia.
  - vm_compute; lia.
  - rewrite <- E in H.
    assert (Hc : completed kite_config.2 !!! 1 = false ∧ completed kite_config.2 !!! 2 = false)
      by (vm_compute; split; reflexivity).
    destruct (H Hc 2 (or_intror eq_refl)) as [[A1 A2] _]; [rewrite S2; lia|].
    destruct (H Hc 1 (or_introl eq_refl)) as [_ [B1 B2]]; [rewrite S1; lia|].
    split_and!; [by rewrite E|done|by rewrite A1, S2| |by rewrite B1, S1].
    apply A2. left. by rewrite S2.
Defined.

(** The sentence of the design document fails as it is worded: the edge that hangs
    off the triangle is stored into before the loop over the levels, once,
    and no pop ever takes it out of its bucket. *)
Lemma level0_store_without_pop :
  store_count 3 (peel_init [1; 1; 1; 0] []).2 = 1 ∧
  (3, 2) ∈ stores (peel_init [1; 1; 1; 0] []).2 ∧
  ∀ c, peel_reachable least_first pendant_graph [1; 1; 1; 0] [] c → 3 ∈ vec c.2 !!! 0.
Proof.
  split_and!.
  - vm_compute. reflexivity.
  - vm_compute. left.
  - intros c Hc. by apply (level0_bucket _ _ _ _ _ 3 Hc); [simpl; lia|].
Qed.

(** C2, amended.  Every edge of the graph is stored into [trussness]
    once.  The stores made before the loop over the levels are those of the
    edges of initial support 0, with the value 2; during the loop, the only
    move that stores is the one that ends the processing of a popped edge:
    it stores the current level plus 2 for that edge, which the pop took
    out of the bucket of the level and which is in no bucket since; no edge
    is ever stored twice, and on exit every edge has been stored once. *)
Theorem trussness_stored_once (tb : tie_break) (g : igraph_t)
    (support0 trussness0 : list nat) :
  support0 ≠ [] →
  length support0 = igraph_ecount g →
  let max := igraph_vector_int_max support0 in
  (∀ e v, (e, v) ∈ stores (peel_init support0 trussness0).2 →
          v = 0 + 2 ∧ support0 !!! e = 0) ∧
  (∀ e, e < igraph_ecount g → support0 !!! e = 0 →
        (e, 0 + 2) ∈ stores (peel_init support0 trussness0).2) ∧
  (∀ c level seed f t ns,
     peel_reachable tb g support0 trussness0 c →
     (peel_step tb g max c).1 = AtFor level seed f t ns →
     (c.1 = AtWhile level ∧ seed ∈ vec c.2 !!! level ∧
      seed ∉ vec (peel_step tb g max c).2 !!! level) ∨
     (∃ n, c.1 = AtFor level seed f t (n :: ns))) ∧
  (∀ c, peel_reachable tb g support0 trussness0 c →
        stores (peel_step tb g max c).2 = stores c.2 ∨
        ∃ level seed f t,
          c.1 = AtFor level seed f t [] ∧
          (∀ k, seed ∉ vec c.2 !!! k) ∧
          stores (peel_step tb g max c).2 = (seed, level + 2) :: stores c.2) ∧
  (∀ c e, peel_reachable tb g support0 trussness0 c → e < igraph_ecount g →
          store_count e c.2 ≤ 1) ∧
  (∃ st, peel_reachable tb g support0 trussness0 (AtEnd, st) ∧
         igraph_i_trussness tb g support0 trussness0 = Some (trussness st) ∧
         ∀ e, e < igraph_ecount g → store_count e st = 1).
Proof.
  unfold igraph_ecount, igraph_vector_int_max. intros Hne Hlen. simpl. split_and!.
  - intros e v (-> & _ & Hz)%peel_init_stores. done.
  - intros e He Hz. unfold peel_init, complete_level0; cbn [snd].
    rewrite record_edges_stores. simpl.
    rewrite app_nil_r, elem_of_reverse, list_elem_of_fmap.
    exists e. split; [done|]. apply elem_of_elements. simpl.
    apply fill_buckets_spec. split; [lia|done].
  - intros c level seed f t ns Hr Hs. pose proof (peel_reachable_inv _ _ _ _ _ Hr) as Hinv.
    destruct c as [[l|l s f' t' [|n ns']|] st]; simpl in Hs |- *.
    + unfold peel_step in Hs |- *; simpl in Hs |- *. repeat case_decide; simplify_eq/=.
      left. assert (Hin : set_begin tb (vec st !!! level) ∈ vec st !!! level)
        by by apply set_begin_elem.
      split_and!; [done..|].
      pose proof (inv_len_vec _ _ _ Hinv). simpl in *.
      intros [_ Hk]%erase_seed_vec; [|lia]. by apply Hk.
    + done.
    + simplify_eq. right. eauto.
    + done.
  - intros c Hr. pose proof (peel_reachable_inv _ _ _ _ _ Hr) as Hinv.
    destruct c as [[l|l s f' t' [|n ns']|] st]; simpl.
    + left. unfold peel_step; simpl. by repeat case_decide.
    + right. exists l, s, f', t'.
      destruct (inv_seed _ _ _ Hinv _ _ _ _ _ eq_refl) as (_ & _ & _ & _ & S5 & _).
      done.
    + left. apply visit_neighbor_stores.
    + by left.
  - intros c e Hinv%peel_reachable_inv He. rewrite <- Hlen in He.
    destruct (completed c.2 !!! e) eqn:Hc.
    + destruct (inv_completed _ _ _ Hinv e He Hc) as (_ & _ & _ & ->). done.
    + rewrite (inv_unstored _ _ _ Hinv e Hc). lia.
  - destruct (igraph_i_trussness_returns tb g support0 trussness0) as (st & Hr & Hres);
      [done|lia|].
    exists st. split_and!; [done..|].
    intros e He. rewrite <- Hlen in He.
    apply peel_reachable_inv in Hr as Hinv.
    pose proof (peel_end_completed _ _ _ _ Hinv He) as Hc.
    by destruct (inv_completed _ _ _ Hinv e He Hc) as (_ & _ & _ & ?).
Qed.

Lemma trussness_stored_once_witness :
  ∃ st, peel_reachable least_first pendant_graph [1; 1; 1; 0] [] (AtEnd, st) ∧
        igraph_i_trussness least_first pendant_graph [1; 1; 1; 0] [] = Some (trussness st) ∧
        ∀ e, e < 4 → store_count e st = 1.
Proof.
  apply (trussness_stored_once least_first pendant_graph [1; 1; 1; 0] []);
    [discriminate|reflexivity].
Defined.

(** C3. For the triangles handed over by the lister, the support builder
    succeeds and returns one counter per edge of the graph; the counter of
    edge [e] is the number of listed triangles that have [e] among their
    three edges. *)
Theorem support_counts_triangles (g : igraph_t) (ts : list (nat * nat * nat)) :
  Forall (is_triangle g) ts →
  ∃ support,
    build_support g (flatten_triangles ts) = Some support ∧
    length support = igraph_ecount g ∧
    ∀ e, e < igraph_ecount g →
      support !!! e = length (filter (triangle_edge g e) ts).
Proof.
  intros Hts. destruct (build_support_Some g ts Hts) as (eid & -> & Hcount).
  eexists. split; [done|]. split.
  - by rewrite compute_support_length, length_replicate.
  - intros e He. rewrite compute_support_lookup by (by rewrite length_replicate).
    rewrite lookup_total_replicate_2 by done. by rewrite Hcount.
Qed.

Lemma support_counts_triangles_witness :
  ∃ support,
    build_support [(0, 1); (0, 2); (1, 2); (1, 3); (2, 3)]
      (flatten_triangles [(0, 1, 2); (1, 2, 3)]) = Some support ∧
    length support = 5 ∧
    ∀ e, e < 5 →
      support !!! e =
      length (filter (triangle_edge [(0, 1); (0, 2); (1, 2); (1, 3); (2, 3)] e)
                [(0, 1, 2); (1, 2, 3)]).
Proof.
  apply (support_counts_triangles [(0, 1); (0, 2); (1, 2); (1, 3); (2, 3)]
           [(0, 1, 2); (1, 2, 3)]).
  apply Forall_cons_2; [|apply Forall_cons_2; [|apply Forall_nil_2]];
    (split_and!; simpl; [lia|lia|lia|eexists; vm_compute; reflexivity..]).
Defined.

(** The sentence of the design document fails as it is worded, twice.  An
    edge of initial support 0 is completed on entry to the loop over the
    levels and is in bucket 0, where it stays to the end (the loop starts
    at level 1 and nothing erases from bucket 0).  And between its pop and
    the store that completes it, the popped edge is in no bucket. *)
Lemma completed_edge_stays_in_bucket0 :
  (∃ c,
     length [1; 1; 1; 0] = igraph_ecount pendant_graph ∧
     peel_reachable least_first pendant_graph [1; 1; 1; 0] [] c ∧
     c.1 = AtEnd ∧
     completed c.2 !!! 3 = true ∧
     3 ∈ vec c.2 !!! 0) ∧
  (length [1; 1; 2; 1; 1] = igraph_ecount kite_graph ∧
   peel_reachable least_first kite_graph [1; 1; 2; 1; 1] [] kite_config ∧
   completed kite_config.2 !!! 0 = false ∧
   ∀ k, 0 ∉ vec kite_config.2 !!! k).
Proof.
  split.
  - exists (peel_run least_first pendant_graph 1 (peel_fuel 4 1) (peel_init [1; 1; 1; 0] [])).
    split_and!.
    + reflexivity.
    + eexists. reflexivity.
    + vm_compute. reflexivity.
    + vm_compute. reflexivity.
    + eapply bool_decide_eq_true. vm_compute. reflexivity.
  - assert (H : peel_reachable least_first kite_graph [1; 1; 2; 1; 1] [] kite_config)
      by (exists 1; reflexivity).
    split_and!; [reflexivity|done|vm_compute; reflexivity|].
    assert (E : kite_config.1 = AtFor 1 0 0 1 [2]) by (vm_compute; reflexivity).
    apply peel_reachable_inv in H.
    by destruct (inv_seed _ _ _ H _ _ _ _ _ E) as (_ & _ & _ & _ & ? & _).
Qed.

(** C4, amended.  At every point of a run and for every edge: an edge that
    is neither completed nor in flight is in the bucket of its support and
    in no other; the edge in flight (popped, not recorded yet) is not
    completed and is in no bucket; a completed edge is in bucket 0 if its
    initial support is 0 and in no bucket otherwise, it stays completed,
    and the next move puts it into no bucket. *)
Theorem bucket_invariant (tb : tie_break) (g : igraph_t)
    (support0 trussness0 : list nat) (c : peel_config) (e : nat) :
  peel_reachable tb g support0 trussness0 c →
  e < length support0 →
  let c' := peel_step tb g (igraph_vector_int_max support0) c in
  (completed c.2 !!! e = false → ¬ in_flight c.1 e →
     ∀ k, e ∈ vec c.2 !!! k ↔ k = support c.2 !!! e) ∧
  (in_flight c.1 e →
     completed c.2 !!! e = false ∧ ∀ k, e ∉ vec c.2 !!! k) ∧
  (completed c.2 !!! e = true →
     (∀ k, e ∈ vec c.2 !!! k ↔ k = 0 ∧ support0 !!! e = 0) ∧
     completed c'.2 !!! e = true ∧
     (∀ k, e ∈ vec c'.2 !!! k → e ∈ vec c.2 !!! k)).
Proof.
  intros Hr He. pose proof (peel_reachable_inv _ _ _ _ _ Hr) as Hinv.
  unfold igraph_vector_int_max. simpl.
  assert (Hz : ∀ c, peel_inv g support0 c → completed c.2 !!! e = true →
            ∀ k, e ∈ vec c.2 !!! k ↔ k = 0 ∧ support0 !!! e = 0).
  { intros c0 Hinv0 Hc k. destruct (inv_completed _ _ _ Hinv0 e He Hc) as (_ & H & _).
    rewrite H. pose proof (inv_support_le _ _ _ Hinv0 e).
    pose proof (inv_support_pos _ _ _ Hinv0 e). intuition lia. }
  split_and!.
  - intros Hc Hf. by apply (inv_pending _ _ _ Hinv).
  - intros Hf. destruct c as [[| |] st]; simpl in Hf; try done. subst.
    destruct (inv_seed _ _ _ Hinv _ _ _ _ _ eq_refl) as (S1 & S2 & S3 & S4 & S5 & S6 & S7 & S8).
    done.
  - intros Hc. split; [by apply Hz|].
    destruct (peel_step_frozen tb g (max_list support0) c e) as [Hc' _]; [|done|].
    { by rewrite (inv_len_completed _ _ _ Hinv). }
    split; [done|]. intros k Hk.
    apply (Hz _ (peel_step_inv tb _ _ _ Hinv) Hc') in Hk. by apply Hz.
Qed.

Lemma bucket_invariant_witness :
  (∀ k, 2 ∈ vec kite_config.2 !!! k ↔ k = 2) ∧ (∀ k, 0 ∉ vec kite_config.2 !!! k).
Proof.
  assert (H : peel_reachable least_first kite_graph [1; 1; 2; 1; 1] [] kite_config)
    by (exists 1; reflexivity).
  split.
  - destruct (bucket_invariant least_first kite_graph [1; 1; 2; 1; 1] [] kite_config 2 H)
      as (A & _); [simpl; lia|].
    intros k. rewrite A; [| vm_compute; reflexivity | vm_compute; lia].
    assert (support kite_config.2 !!! 2 = 2) as -> by (vm_compute; reflexivity). done.
  - destruct (bucket_invariant least_first kite_graph [1; 1; 2; 1; 1] [] kite_config 0 H)
      as (_ & B & _); [simpl; lia|].
    apply B. vm_compute. reflexivity.
Defined.

(** C5. The neighbour list of every vertex is in strictly ascending order,
    so it has no repeated entry, also when the edge list has parallel
    edges; it does not contain the vertex itself, also when the edge list
    has self-loops; and it holds the vertices joined to the vertex by an
    edge. *)
Theorem adjlist_simple (g : igraph_t) (v : nat) :
  StronglySorted lt (igraph_adjlist g v) ∧
  NoDup (igraph_adjlist g v) ∧
  v ∉ igraph_adjlist g v ∧
  ∀ w, w ∈ igraph_adjlist g v ↔ w ≠ v ∧ ∃ x, x ∈ g ∧ joins v w x.
Proof.
  split_and!.
  - apply adjlist_sorted.
  - apply StronglySorted_lt_NoDup, adjlist_sorted.
  - intros [? _]%elem_of_adjlist. done.
  - apply elem_of_adjlist.
Qed.

(** C6. An edge whose initial support is 0 is completed with trussness 2
    on entry to the loop over the levels, and 2 is what is returned for
    it. *)
Theorem level0_edges (tb : tie_break) (g : igraph_t) (support0 trussness0 : list nat)
    (e : nat) :
  length support0 = igraph_ecount g →
  e < igraph_ecount g →
  support0 !!! e = 0 →
  (peel_init support0 trussness0).1 = AtWhile 1 ∧
  completed (peel_init support0 trussness0).2 !!! e = true ∧
  trussness (peel_init support0 trussness0).2 !!! e = 2 ∧
  ∃ res, igraph_i_trussness tb g support0 trussness0 = Some res ∧ res !!! e = 2.
Proof.
  unfold igraph_ecount. intros Hlen He Hz. rewrite <- Hlen in He.
  destruct (peel_init_state support0 trussness0) as (I1 & I2 & I3 & I4 & I5 & I6 & I7 & I8).
  split_and!; [done| |by apply I7|].
  - rewrite I6 by done. by apply bool_decide_eq_true.
  - destruct (igraph_i_trussness_returns tb g support0 trussness0) as (st & Hr & ->);
      [intros ->; simpl in He; lia|lia|].
    eexists; split; [done|].
    apply peel_reachable_inv in Hr as Hinv.
    pose proof (peel_end_completed _ _ _ _ Hinv He) as Hc.
    destruct (inv_completed _ _ _ Hinv e He Hc) as (_ & _ & Ht & _).
    pose proof (inv_support_le _ _ _ Hinv e). simpl in *. lia.
Qed.

Lemma level0_edges_witness :
  ∃ res, igraph_i_trussness least_first pendant_graph [1; 1; 1; 0] [] = Some res ∧
         res !!! 3 = 2.
Proof.
  apply (level0_edges least_first pendant_graph [1; 1; 1; 0] [] 3);
    [reflexivity|vm_compute; lia|reflexivity].
Defined.

(** C7. [igraph_i_trussness] returns one value per edge, and every value
    lies between 2 and 2 plus the largest initial support. *)
Theorem trussness_bounds (tb : tie_break) (g : igraph_t) (support0 trussness0 : list nat) :
  support0 ≠ [] →
  length support0 = igraph_ecount g →
  ∃ res, igraph_i_trussness tb g support0 trussness0 = Some res ∧
         length res = igraph_ecount g ∧
         ∀ e, e < igraph_ecount g →
              2 ≤ res !!! e ≤ 2 + igraph_vector_int_max support0.
Proof.
  unfold igraph_ecount, igraph_vector_int_max. intros Hne Hlen.
  destruct (igraph_i_trussness_returns tb g support0 trussness0) as (st & Hr & ->);
    [done|lia|].
  apply peel_reachable_inv in Hr as Hinv.
  eexists; split; [done|]. split.
  - rewrite <- Hlen. apply (inv_len_trussness _ _ _ Hinv).
  - intros e He. rewrite <- Hlen in He.
    pose proof (peel_end_completed _ _ _ _ Hinv He) as Hc.
    destruct (inv_completed _ _ _ Hinv e He Hc) as (_ & _ & Ht & _).
    pose proof (inv_support_le _ _ _ Hinv e).
    pose proof (lookup_total_le_max_list support0 e). simpl in *. lia.
Qed.

Lemma trussness_bounds_witness :
  ∃ res, igraph_i_trussness least_first kite_graph [1; 1; 2; 1; 1] [] = Some res ∧
         length res = 5 ∧
         ∀ e, e < 5 → 2 ≤ res !!! e ≤ 2 + 2.
Proof.
  apply (trussness_bounds least_first kite_graph [1; 1; 2; 1; 1] []);
    [discriminate|reflexivity].
Defined.

(** C8. On the triangles handed over by the lister, [igraph_trussness]
    succeeds and returns the same vector whatever element [begin()] yields
    at each pop and whatever the vector it is given to fill held before;
    in particular two calls on the same graph return the same vector. *)
Theorem trussness_tie_break_invariant (g : igraph_t) (ts : list (nat * nat * nat))
    (tb1 tb2 : tie_break) (trussness1 trussness2 : list nat) :
  Forall (is_triangle g) ts →
  ∃ res, igraph_trussness tb1 g (flatten_triangles ts) trussness1 = Some res ∧
         igraph_trussness tb2 g (flatten_triangles ts) trussness2 = Some res.
Proof.
  intros Hts. destruct (build_support_Some g ts Hts) as (eid & Hs & _).
  destruct (build_support_active g ts _ Hts Hs) as [Hl Hact].
  set (support0 := igraph_truss_i_compute_support _ _) in *.
  unfold igraph_trussness. rewrite Hs. simpl.
  rewrite (peel_result_unique g support0 Hl Hact tb2 tb1 trussness2 trussness1).
  destruct (decide (support0 = [])) as [->|Hne]; [by eexists|].
  destruct (peel_result_canonical g support0 Hl Hact tb1 trussness1 Hne) as (res & -> & _).
  by eexists.
Qed.

Lemma trussness_tie_break_invariant_witness :
  igraph_trussness least_first kite_graph (flatten_triangles [(0, 1, 2); (1, 2, 3)]) [] =
  igraph_trussness greatest_first kite_graph (flatten_triangles [(0, 1, 2); (1, 2, 3)]) [7; 7].
Proof.
  destruct (trussness_tie_break_invariant kite_graph [(0, 1, 2); (1, 2, 3)]
              least_first greatest_first [] [7; 7]) as (res & -> & ->); [|done].
  apply Forall_cons_2; [|apply Forall_cons_2; [|apply Forall_nil_2]];
    (split_and!; simpl; [lia|lia|lia|eexists; vm_compute; reflexivity..]).
Defined.

(** C9. With a support vector of length zero [igraph_i_trussness] returns
    success and the empty vector, whatever the graph, the tie-break and the
    vector it is given, and the only stage the call goes through is the
    resize of [trussness] to no slots: no maximum of the support is taken,
    no bucket is built and no neighbour list.  So does [igraph_trussness]
    on the graph without edges.  The stages after the resize are gone
    through exactly when the support vector is not empty, so the maximum
    is never asked of an empty vector. *)
Theorem trussness_empty_graph (tb : tie_break) (g : igraph_t) (trussness0 : list nat) :
  igraph_i_trussness_traced tb g [] trussness0 = ([StageResize 0], Some []) ∧
  igraph_i_trussness tb g [] trussness0 = Some [] ∧
  build_support [] [] = Some [] ∧
  igraph_trussness tb [] [] trussness0 = Some [] ∧
  (∀ support0,
     (igraph_i_trussness_traced tb g support0 trussness0).1 =
     if decide (support0 = []) then [StageResize 0]
     else [StageResize (length support0); StageMax support0; StageCompleted;
           StageBuckets; StageLevel0; StageAdjlist; StageLevels]) ∧
  (∀ support0 v,
     StageMax v ∈ (igraph_i_trussness_traced tb g support0 trussness0).1 → v ≠ []).
Proof.
  assert (Hstages : ∀ support0,
            (igraph_i_trussness_traced tb g support0 trussness0).1 =
            if decide (support0 = []) then [StageResize 0]
            else [StageResize (length support0); StageMax support0; StageCompleted;
                  StageBuckets; StageLevel0; StageAdjlist; StageLevels]).
  { intros [|x support0]; done. }
  split_and!; [done..|].
  intros support0 v. rewrite Hstages. case_decide as Hd; intros Hin;
    repeat (apply elem_of_cons in Hin as [Heq|Hin]; [by simplify_eq|]);
    by apply elem_of_nil in Hin.
Qed.

(** C10. At every point of a run, an edge that is not completed has a
    support of at least the current level; a bucket below the current level
    holds completed edges only; and [demote] at the current level, applied
    to an edge whose support is above it, lowers the support by one, to a
    value that is still at least the level. *)
Theorem support_at_least_level (tb : tie_break) (g : igraph_t)
    (support0 trussness0 : list nat) (c : peel_config) :
  peel_reachable tb g support0 trussness0 c →
  let level := pc_level (igraph_vector_int_max support0) c.1 in
  (∀ e, e < length support0 → completed c.2 !!! e = false →
        level ≤ support c.2 !!! e) ∧
  (∀ k e, k < level → e ∈ vec c.2 !!! k → completed c.2 !!! e = true) ∧
  (∀ e, level < support c.2 !!! e →
        support (demote level e c.2) !!! e = support c.2 !!! e - 1 ∧
        level ≤ support (demote level e c.2) !!! e).
Proof.
  intros Hinv%peel_reachable_inv. unfold igraph_vector_int_max. simpl.
  assert (Hp : ∀ e, e < length support0 → completed c.2 !!! e = false →
    pc_level (max_list support0) c.1 ≤ support c.2 !!! e ∧
    ∀ k, e ∈ vec c.2 !!! k → k = support c.2 !!! e).
  { intros e He Hc. destruct (decide (in_flight c.1 e)) as [Hf|Hf].
    - destruct c as [[| |] st]; simpl in Hf; try done. subst.
      destruct (inv_seed _ _ _ Hinv _ _ _ _ _ eq_refl) as (S1 & S2 & S3 & S4 & S5 & S6 & S7 & S8).
      simpl in *. split; [lia|]. intros k Hk. by apply S5 in Hk.
    - destruct (inv_pending _ _ _ Hinv e He Hc Hf) as [H1 H2]. split; [done|].
      intros k. apply H2. }
  split_and!.
  - intros e He Hc. by apply Hp.
  - intros k e Hk Hin. pose proof (inv_bucket_range _ _ _ Hinv _ _ Hin) as He.
    destruct (completed c.2 !!! e) eqn:Hc; [done|].
    destruct (Hp e He Hc) as [H1 H2]. apply H2 in Hin. lia.
  - intros e Hlt. rewrite demote_support, decide_True by done. lia.
Qed.

Lemma support_at_least_level_witness :
  1 ≤ support kite_config.2 !!! 2 ∧
  1 ≤ support (demote 1 2 kite_config.2) !!! 2.
Proof.
  assert (H : peel_reachable least_first kite_graph [1; 1; 2; 1; 1] [] kite_config)
    by (exists 1; reflexivity).
  destruct (support_at_least_level least_first kite_graph [1; 1; 2; 1; 1] [] kite_config H)
    as (A & _ & C).
  split.
  - apply (A 2); [simpl; lia|vm_compute; reflexivity].
  - apply (C 2). vm_compute. lia.
Defined.

(** * Further properties of the code *)

(** ** The value of one edge *)

(** X1. [igraph_i_trussness] returns 2 for an edge exactly when the initial
    support of the edge is 0, and what it returns for an edge is at most the
    initial support of that edge plus 2. *)
Theorem trussness_edge_bound (tb : tie_break) (g : igraph_t)
    (support0 trussness0 : list nat) :
  length support0 = igraph_ecount g →
  ∃ res, igraph_i_trussness tb g support0 trussness0 = Some res ∧
         ∀ e, e < igraph_ecount g →
              (res !!! e = 2 ↔ support0 !!! e = 0) ∧
              res !!! e ≤ support0 !!! e + 2.
Proof.
  unfold igraph_ecount. intros Hlen.
  destruct (decide (support0 = [])) as [->|Hne].
  { eexists; split; [done|]. simpl in Hlen. intros e He. lia. }
  destruct (igraph_i_trussness_returns tb g support0 trussness0) as (st & Hr & ->);
    [done|lia|].
  apply peel_reachable_inv in Hr as Hinv.
  eexists; split; [done|]. intros e He. rewrite <- Hlen in He.
  pose proof (peel_end_completed _ _ _ _ Hinv He) as Hc.
  destruct (inv_completed _ _ _ Hinv e He Hc) as (_ & _ & Ht & _).
  pose proof (inv_support_le _ _ _ Hinv e) as Hle.
  pose proof (inv_support_pos _ _ _ Hinv e) as Hpos.
  simpl in *. rewrite Ht. lia.
Qed.

Lemma trussness_edge_bound_witness :
  ∃ res, igraph_i_trussness least_first pendant_graph [1; 1; 1; 0] [] = Some res ∧
         ∀ e, e < 4 →
              (res !!! e = 2 ↔ [1; 1; 1; 0] !!! e = 0) ∧
              res !!! e ≤ [1; 1; 1; 0] !!! e + 2.
Proof.
  apply (trussness_edge_bound least_first pendant_graph [1; 1; 1; 0] []). reflexivity.
Defined.

(** ** What a move never undoes *)

Lemma demote_support_le level e st x :
  support (demote level e st) !!! x ≤ support st !!! x.
Proof.
  destruct (decide (level < support st !!! e)) as [H|H].
  - rewrite demote_support by done. case_decide; subst; lia.
  - by rewrite demote_no_op by lia.
Qed.

Lemma visit_neighbor_support_le g level f t n st x :
  support (visit_neighbor g level f t n st) !!! x ≤ support st !!! x.
Proof.
  unfold visit_neighbor.
  destruct (igraph_get_eid g f n), (igraph_get_eid g t n); try done.
  unfold demote_pair. destruct (_ || _); [done|].
  etrans; apply demote_support_le.
Qed.

Lemma visit_neighbor_trussness g level f t n st :
  trussness (visit_neighbor g level f t n st) = trussness st.
Proof.
  unfold visit_neighbor.
  destruct (igraph_get_eid g f n) as [e1|], (igraph_get_eid g t n) as [e2|]; try done.
  unfold demote_pair. destruct (_ || _); [done|].
  destruct (demote_others level e2 (demote level e1 st)) as (_ & -> & _).
  by destruct (demote_others level e1 st) as (_ & -> & _).
Qed.

(** X2. Along a run the level never goes down and no support ever goes up;
    an edge that is completed stays completed, and neither its support nor
    its trussness is written again. *)
Theorem peel_step_monotone (tb : tie_break) (g : igraph_t)
    (support0 trussness0 : list nat) (c : peel_config) (e : nat) :
  peel_reachable tb g support0 trussness0 c →
  let max := igraph_vector_int_max support0 in
  let c' := peel_step tb g max c in
  pc_level max c.1 ≤ pc_level max c'.1 ∧
  support c'.2 !!! e ≤ support c.2 !!! e ∧
  (e < length support0 → completed c.2 !!! e = true →
   completed c'.2 !!! e = true ∧
   support c'.2 !!! e = support c.2 !!! e ∧
   trussness c'.2 !!! e = trussness c.2 !!! e).
Proof.
  intros Hinv%peel_reachable_inv. unfold igraph_vector_int_max. simpl.
  pose proof (inv_level _ _ _ Hinv) as Hlev.
  split_and!.
  - destruct c as [[level|level seed f t [|n ns]|] st]; simpl in *; try lia.
    unfold peel_step; simpl. repeat case_decide; simpl; lia.
  - destruct c as [[level|level seed f t [|n ns]|] st]; simpl; try lia.
    + unfold peel_step; simpl. repeat case_decide; simpl; lia.
    + apply visit_neighbor_support_le.
  - intros He Hc.
    destruct (peel_step_frozen tb g (max_list support0) c e) as [F1 F2];
      [by rewrite (inv_len_completed _ _ _ Hinv)|done|].
    split_and!; [done..|].
    destruct c as [[level|level seed f t [|n ns]|] st]; simpl in *; try done.
    + unfold peel_step; simpl. repeat case_decide; done.
    + destruct (inv_seed _ _ _ Hinv _ _ _ _ _ eq_refl) as (_ & _ & S3 & _). simpl in S3.
      rewrite list_lookup_total_insert_ne by congruence. done.
    + by rewrite visit_neighbor_trussness.
Qed.

Lemma peel_step_monotone_witness :
  pc_level 2 kite_config.1 ≤ pc_level 2 (peel_step least_first kite_graph 2 kite_config).1 ∧
  support (peel_step least_first kite_graph 2 kite_config).2 !!! 2
    ≤ support kite_config.2 !!! 2.
Proof.
  assert (H : peel_reachable least_first kite_graph [1; 1; 2; 1; 1] [] kite_config)
    by (exists 1; reflexivity).
  destruct (peel_step_monotone least_first kite_graph [1; 1; 2; 1; 1] [] kite_config 2 H)
    as (A & B & _).
  split; [exact A|exact B].
Defined.

(** ** The support builder and the error return *)

Lemma igraph_i_trussness_is_Some tb g support0 trussness0 :
  length g ≤ length support0 → is_Some (igraph_i_trussness tb g support0 trussness0).
Proof.
  intros Hg. destruct (decide (support0 = [])) as [->|Hne]; [by eexists|].
  destruct (igraph_i_trussness_returns tb g support0 trussness0 Hne Hg) as (st & _ & ->).
  by eexists.
Qed.

Lemma build_support_length g triangles support0 :
  build_support g triangles = Some support0 → length support0 = igraph_ecount g.
Proof.
  unfold build_support. intros H. apply bind_Some in H as (eid & _ & [= <-]).
  by rewrite compute_support_length, length_replicate.
Qed.

Lemma get_eids_unpack_None g ts :
  igraph_get_eids g (igraph_truss_i_unpack (flatten_triangles ts)) = None ↔
  ∃ t, t ∈ ts ∧ (igraph_get_eid g t.1.1 t.1.2 = None ∨
                 igraph_get_eid g t.1.1 t.2 = None ∨
                 igraph_get_eid g t.1.2 t.2 = None).
Proof.
  induction ts as [|[[a b] c] ts IH].
  - split; [done|]. intros (t & Ht & _). by apply elem_of_nil in Ht.
  - rewrite unpack_flatten_cons. cbn [igraph_get_eids].
    destruct (igraph_get_eid g a b) as [e1|] eqn:E1; simpl;
      [|split; [intros _|done]; exists (a, b, c); split; [left|by left]].
    destruct (igraph_get_eid g a c) as [e2|] eqn:E2; simpl;
      [|split; [intros _|done]; exists (a, b, c); split; [left|by right; left]].
    destruct (igraph_get_eid g b c) as [e3|] eqn:E3; simpl;
      [|split; [intros _|done]; exists (a, b, c); split; [left|by right; right]].
    destruct (igraph_get_eids g (igraph_truss_i_unpack (flatten_triangles ts))) as [es|] eqn:E;
      simpl.
    + split; [done|]. intros (t & [->|Ht]%elem_of_cons & Hu).
      * simpl in Hu. rewrite E1, E2, E3 in Hu. by destruct Hu as [|[|]].
      * destruct IH as [_ IH]. discriminate IH. eauto.
    + split; [intros _|done]. destruct IH as [IH _].
      destruct (IH eq_refl) as (t & Ht & Hu). exists t. split; [by right|done].
Qed.

(** X3. Failures to allocate memory aside, [igraph_trussness] returns an
    error exactly when one of the three vertex pairs of a listed triple
    resolves to no edge: this is the error of [igraph_get_eids], and the
    peeler that runs after that call always returns success. *)
Theorem trussness_error (tb : tie_break) (g : igraph_t) (ts : list (nat * nat * nat))
    (trussness0 : list nat) :
  igraph_trussness tb g (flatten_triangles ts) trussness0 = None ↔
  ∃ t, t ∈ ts ∧ (igraph_get_eid g t.1.1 t.1.2 = None ∨
                 igraph_get_eid g t.1.1 t.2 = None ∨
                 igraph_get_eid g t.1.2 t.2 = None).
Proof.
  rewrite <- get_eids_unpack_None. unfold igraph_trussness.
  destruct (build_support g (flatten_triangles ts)) as [support0|] eqn:E; simpl.
  - pose proof (build_support_length _ _ _ E) as Hlen. unfold igraph_ecount in Hlen.
    destruct (igraph_i_trussness_is_Some tb g support0 trussness0) as [res ->]; [lia|].
    unfold build_support in E. apply bind_Some in E as (eid & -> & _). done.
  - unfold build_support in E. apply bind_None in E as [E|(eid & _ & E)]; done.
Qed.

Lemma sum_list_alter_S (l : list nat) e :
  e < length l → sum_list (alter S e l) = S (sum_list l).
Proof.
  revert e. induction l as [|x l IH]; intros [|e] H; simpl in *; try lia.
  change (list_alter S e l) with (alter S e l). rewrite IH by lia. lia.
Qed.

Lemma compute_support_sum eid sup :
  Forall (λ e, e < length sup) eid →
  sum_list (igraph_truss_i_compute_support eid sup) = sum_list sup + length eid.
Proof.
  unfold igraph_truss_i_compute_support. revert sup.
  induction eid as [|x eid IH]; intros sup H; simpl; [lia|].
  apply Forall_cons in H as [Hx H].
  rewrite IH by (by rewrite length_alter). rewrite sum_list_alter_S by done. lia.
Qed.

Lemma get_eids_unpack_Some g ts eid :
  igraph_get_eids g (igraph_truss_i_unpack (flatten_triangles ts)) = Some eid →
  Forall (λ e, e < length g) eid ∧ length eid = 3 * length ts.
Proof.
  revert eid. induction ts as [|[[a b] c] ts IH]; intros eid.
  - intros [= <-]. done.
  - rewrite unpack_flatten_cons. cbn [igraph_get_eids]. intros H.
    apply bind_Some in H as (e1 & H1 & H). apply bind_Some in H as (r1 & H & [= <-]).
    apply bind_Some in H as (e2 & H2 & H). apply bind_Some in H as (r2 & H & [= <-]).
    apply bind_Some in H as (e3 & H3 & H). apply bind_Some in H as (r3 & H & [= <-]).
    destruct (IH _ H) as [IH1 IH2]. split.
    + repeat (apply Forall_cons_2; [by eapply get_eid_lt|]). done.
    + simpl. lia.
Qed.

(** X4. When the support builder succeeds, the support vector has one slot
    per edge and its entries sum to three times the number of triples
    listed: every triple adds one to three slots, whatever it resolves
    to. *)
Theorem support_total (g : igraph_t) (ts : list (nat * nat * nat)) (support0 : list nat) :
  build_support g (flatten_triangles ts) = Some support0 →
  length support0 = igraph_ecount g ∧ sum_list support0 = 3 * length ts.
Proof.
  intros H. split; [by eapply build_support_length|].
  unfold build_support in H. apply bind_Some in H as (eid & He & [= <-]).
  apply get_eids_unpack_Some in He as [Hlt Hlen].
  rewrite compute_support_sum by (by rewrite length_replicate).
  rewrite sum_list_replicate. lia.
Qed.

Lemma support_total_witness :
  length [1; 1; 2; 1; 1] = igraph_ecount kite_graph ∧
  sum_list [1; 1; 2; 1; 1] = 3 * length [(0, 1, 2); (1, 2, 3)].
Proof.
  apply (support_total kite_graph [(0, 1, 2); (1, 2, 3)] [1; 1; 2; 1; 1]). reflexivity.
Defined.

(** ** The order of the listing *)

(** A triple on the vertices of a triangle is the triangle with its
    vertices in another order. *)
Lemma triangle_set_perm a b c t' :
  a ≠ b → a ≠ c → b ≠ c → triangle_set (a, b, c) = triangle_set t' →
  t' = (a, b, c) ∨ t' = (a, c, b) ∨ t' = (b, a, c) ∨
  t' = (b, c, a) ∨ t' = (c, a, b) ∨ t' = (c, b, a).
Proof.
  destruct t' as [[a' b'] c']. unfold triangle_set. simpl. intros Hab Hac Hbc Hs.
  assert (a' = a ∨ a' = b ∨ a' = c) as Ha'
    by (assert (a' ∈ ({[a; b; c]} : gset nat)) by (rewrite Hs; set_solver); set_solver).
  assert (b' = a ∨ b' = b ∨ b' = c) as Hb'
    by (assert (b' ∈ ({[a; b; c]} : gset nat)) by (rewrite Hs; set_solver); set_solver).
  assert (c' = a ∨ c' = b ∨ c' = c) as Hc'
    by (assert (c' ∈ ({[a; b; c]} : gset nat)) by (rewrite Hs; set_solver); set_solver).
  assert (a = a' ∨ a = b' ∨ a = c') as Ha
    by (assert (a ∈ ({[a'; b'; c']} : gset nat)) by (rewrite <- Hs; set_solver); set_solver).
  assert (b = a' ∨ b = b' ∨ b = c') as Hb
    by (assert (b ∈ ({[a'; b'; c']} : gset nat)) by (rewrite <- Hs; set_solver); set_solver).
  assert (c = a' ∨ c = b' ∨ c = c') as Hc
    by (assert (c ∈ ({[a'; b'; c']} : gset nat)) by (rewrite <- Hs; set_solver); set_solver).
  clear Hs.
  destruct Ha' as [-> | [-> | ->]], Hb' as [-> | [-> | ->]], Hc' as [-> | [-> | ->]];
    try (by auto 10); exfalso; destruct Ha as [|[|]], Hb as [|[|]], Hc as [|[|]]; congruence.
Qed.

Lemma same_set_triangle g t t' :
  is_triangle g t → triangle_set t = triangle_set t' →
  is_triangle g t' ∧ ∀ e, triangle_edge g e t ↔ triangle_edge g e t'.
Proof.
  destruct t as [[a b] c]. intros (Hab & Hac & Hbc & H1 & H2 & H3) Hs. simpl in * |-.
  unfold is_triangle, triangle_edge.
  destruct (triangle_set_perm a b c t' Hab Hac Hbc Hs) as [-> | [-> | [-> | [-> | [-> | ->]]]]];
    simpl; rewrite ?(get_eid_sym g b a), ?(get_eid_sym g c a), ?(get_eid_sym g c b);
    (split; [split_and!; (done || congruence)|intros e; tauto]).
Qed.

Lemma same_listing_count g ts ts' :
  Forall (is_triangle g) ts → same_listing ts ts' →
  Forall (is_triangle g) ts' ∧
  ∀ e, length (filter (triangle_edge g e) ts) = length (filter (triangle_edge g e) ts').
Proof.
  intros Hts (ts1 & Hp & HF). rewrite Hp in Hts.
  assert (Forall (is_triangle g) ts' ∧
          ∀ e, length (filter (triangle_edge g e) ts1) =
               length (filter (triangle_edge g e) ts')) as [A B].
  { clear Hp. induction HF as [|t t' ts1 ts' Hs HF IH]; [done|].
    apply Forall_cons in Hts as [Ht Hts]. destruct (IH Hts) as [IH1 IH2].
    destruct (same_set_triangle g t t' Ht Hs) as [Ht' He].
    split; [by apply Forall_cons_2|]. intros e. rewrite !filter_cons.
    specialize (He e). specialize (IH2 e).
    destruct (decide (triangle_edge g e t)), (decide (triangle_edge g e t')); simpl;
      try lia; tauto. }
  split; [done|]. intros e. rewrite <- B. by rewrite Hp.
Qed.

(** X5. The support vector, and with it the result of [igraph_trussness],
    does not depend on the order in which the triangles are listed nor on
    the order of the three vertices of a listed triangle. *)
Theorem trussness_listing_order (tb : tie_break) (g : igraph_t)
    (ts ts' : list (nat * nat * nat)) (trussness0 : list nat) :
  Forall (is_triangle g) ts → same_listing ts ts' →
  build_support g (flatten_triangles ts) = build_support g (flatten_triangles ts') ∧
  igraph_trussness tb g (flatten_triangles ts) trussness0 =
  igraph_trussness tb g (flatten_triangles ts') trussness0.
Proof.
  intros Hts Hsame. destruct (same_listing_count g ts ts' Hts Hsame) as [Hts' Hcount].
  assert (build_support g (flatten_triangles ts) =
          build_support g (flatten_triangles ts')) as E.
  { destruct (build_support_Some g ts Hts) as (eid & -> & H).
    destruct (build_support_Some g ts' Hts') as (eid' & -> & H').
    f_equal. apply list_eq_same_length with (igraph_ecount g);
      [by rewrite compute_support_length, length_replicate..|].
    intros e x y He. rewrite !list_lookup_alt. intros [_ <-] [_ <-].
    rewrite !compute_support_lookup by (by rewrite length_replicate).
    by rewrite H, H', Hcount. }
  split; [done|]. unfold igraph_trussness. by rewrite E.
Qed.

Lemma trussness_listing_order_witness :
  build_support kite_graph (flatten_triangles [(0, 1, 2); (1, 2, 3)]) =
  build_support kite_graph (flatten_triangles [(3, 1, 2); (2, 0, 1)]) ∧
  igraph_trussness least_first kite_graph (flatten_triangles [(0, 1, 2); (1, 2, 3)]) [] =
  igraph_trussness least_first kite_graph (flatten_triangles [(3, 1, 2); (2, 0, 1)]) [].
Proof.
  apply (trussness_listing_order least_first kite_graph).
  - apply Forall_cons_2; [|apply Forall_cons_2; [|apply Forall_nil_2]];
      (split_and!; simpl; [lia|lia|lia|eexists; vm_compute; reflexivity..]).
  - exists [(1, 2, 3); (0, 1, 2)]. split; [apply perm_swap|].
    apply Forall2_cons_2; [|apply Forall2_cons_2; [|apply Forall2_nil_2]];
      unfold triangle_set; simpl; set_solver.
Defined.

(** ** The vector that is given to fill *)

Lemma demote_agree level e st st' :
  agree st st' → agree (demote level e st) (demote level e st').
Proof.
  destruct st, st'. unfold agree, demote. simpl. intros (-> & -> & ->).
  by case_decide.
Qed.

Lemma visit_neighbor_agree g level f t n st st' :
  agree st st' → agree (visit_neighbor g level f t n st) (visit_neighbor g level f t n st').
Proof.
  intros H. unfold visit_neighbor.
  destruct (igraph_get_eid g f n) as [e1|], (igraph_get_eid g t n) as [e2|]; try done.
  unfold demote_pair. destruct H as (H1 & H2 & H3). rewrite <- H2.
  destruct (_ || _); [done|]. by apply demote_agree, demote_agree.
Qed.

Lemma record_edges_agree l st st' v :
  agree st st' →
  agree (foldl (λ st e, record_edge e v st) st l) (foldl (λ st e, record_edge e v st) st' l).
Proof.
  revert st st'. induction l as [|e l IH]; intros st st' H; [done|]. simpl.
  apply IH. destruct H as (H1 & H2 & H3). unfold agree, record_edge. simpl.
  by rewrite H1, H2, H3.
Qed.

Lemma peel_step_agree tb g max pc st st' :
  agree st st' →
  (peel_step tb g max (pc, st)).1 = (peel_step tb g max (pc, st')).1 ∧
  agree (peel_step tb g max (pc, st)).2 (peel_step tb g max (pc, st')).2.
Proof.
  intros H. destruct pc as [level|level seed f t [|n ns]|]; simpl.
  - unfold peel_step. simpl. destruct H as (H1 & H2 & H3). rewrite <- H3.
    repeat case_decide; simpl; try done.
    split; [done|]. unfold agree, erase_seed. simpl. by rewrite H1, H2, H3.
  - split; [done|]. destruct H as (H1 & H2 & H3). unfold agree, record_edge. simpl.
    by rewrite H1, H2, H3.
  - split; [done|]. by apply visit_neighbor_agree.
  - done.
Qed.

Lemma peel_run_agree tb g max k c c' :
  c.1 = c'.1 → agree c.2 c'.2 →
  (peel_run tb g max k c).1 = (peel_run tb g max k c').1 ∧
  agree (peel_run tb g max k c).2 (peel_run tb g max k c').2.
Proof.
  intros Hpc Hst. unfold peel_run. induction k as [|k [IH1 IH2]]; simpl; [done|].
  destruct (Nat.iter k (peel_step tb g max) c) as [pc1 st1].
  destruct (Nat.iter k (peel_step tb g max) c') as [pc2 st2].
  simpl in IH1. subst pc2. by apply peel_step_agree.
Qed.

Lemma peel_init_agree support0 trussness1 trussness2 :
  agree (peel_init support0 trussness1).2 (peel_init support0 trussness2).2.
Proof.
  unfold peel_init, complete_level0. simpl. by apply record_edges_agree.
Qed.

(** X6. What [igraph_i_trussness] returns does not depend on what the
    vector it is given to fill held before, for any support vector with one
    slot per edge: every slot is stored into, and no slot is read. *)
Theorem trussness_overwrites (tb : tie_break) (g : igraph_t)
    (support0 trussness1 trussness2 : list nat) :
  length support0 = igraph_ecount g →
  igraph_i_trussness tb g support0 trussness1 =
  igraph_i_trussness tb g support0 trussness2.
Proof.
  unfold igraph_ecount. intros Hlen.
  destruct (decide (support0 = [])) as [->|Hne]; [done|].
  unfold igraph_i_trussness, igraph_i_trussness_traced.
  destruct (decide (length support0 = 0)) as [Hz|_]; [by destruct support0|]. cbn [snd].
  unfold igraph_vector_int_max.
  set (fuel := peel_fuel (length support0) (max_list support0)).
  destruct (peel_run_agree tb g (max_list support0) fuel
              (peel_init support0 trussness1) (peel_init support0 trussness2)
              eq_refl (peel_init_agree _ _ _)) as [Hpc (Hs & _)].
  assert (Hinv1 : peel_inv g support0 (peel_run tb g (max_list support0) fuel
                                         (peel_init support0 trussness1)))
    by (apply peel_reachable_inv with tb trussness1; by exists fuel).
  assert (Hinv2 : peel_inv g support0 (peel_run tb g (max_list support0) fuel
                                         (peel_init support0 trussness2)))
    by (apply peel_reachable_inv with tb trussness2; by exists fuel).
  pose proof (peel_run_ends tb g support0 trussness1 ltac:(lia)) as He1. fold fuel in He1.
  destruct (peel_run tb g (max_list support0) fuel (peel_init support0 trussness1))
    as [pc1 st1].
  destruct (peel_run tb g (max_list support0) fuel (peel_init support0 trussness2))
    as [pc2 st2].
  simpl in *. subst pc1 pc2.
  f_equal. apply list_eq_same_length with (length support0);
    [apply (inv_len_trussness _ _ _ Hinv2)|apply (inv_len_trussness _ _ _ Hinv1)|].
  intros e x y He. rewrite !list_lookup_alt. intros [_ <-] [_ <-].
  destruct (inv_completed _ _ _ Hinv1 e He (peel_end_completed _ _ _ _ Hinv1 He))
    as (_ & _ & T1 & _).
  destruct (inv_completed _ _ _ Hinv2 e He (peel_end_completed _ _ _ _ Hinv2 He))
    as (_ & _ & T2 & _).
  simpl in T1, T2. by rewrite T1, T2, Hs.
Qed.

Lemma trussness_overwrites_witness :
  igraph_i_trussness least_first kite_graph [1; 1; 2; 1; 1] [] =
  igraph_i_trussness least_first kite_graph [1; 1; 2; 1; 1] [9; 9; 9; 9; 9; 9; 9].
Proof.
  apply (trussness_overwrites least_first kite_graph [1; 1; 2; 1; 1]). reflexivity.
Defined.

(** ** The common neighbours of two vertices *)

Lemma StronglySorted_lt_sublist (l1 l2 : list nat) :
  l1 `sublist_of` l2 → StronglySorted lt l2 → StronglySorted lt l1.
Proof.
  intros Hs H2. revert l1 Hs. induction H2 as [|x l2 H IH Hx]; intros l1 Hs.
  - apply sublist_nil_r in Hs as ->. constructor.
  - apply sublist_cons_r in Hs as [Hs|(l' & -> & Hs)]; [by apply IH|].
    constructor; [by apply IH|]. rewrite Forall_forall in Hx. apply Forall_forall.
    intros y Hy. apply Hx. by eapply elem_of_sublist.
Qed.

Lemma intersect_sorted_sorted l1 l2 :
  StronglySorted lt l1 → StronglySorted lt (igraph_vector_int_intersect_sorted l1 l2).
Proof.
  intros H. eapply StronglySorted_lt_sublist; [|done]. apply intersect_sorted_sublist.
Qed.

Lemma common_neighbors_sorted g u v : StronglySorted lt (common_neighbors g u v).
Proof.
  unfold common_neighbors. case_decide; apply intersect_sorted_sorted, adjlist_sorted.
Qed.

(** Two ascending lists with the same elements are one list. *)
Lemma sorted_lt_ext (l1 l2 : list nat) :
  StronglySorted lt l1 → StronglySorted lt l2 → (∀ w, w ∈ l1 ↔ w ∈ l2) → l1 = l2.
Proof.
  intros H1 H2 H. assert (AntiSymm eq lt) by (intros x y ? ?; lia).
  apply (StronglySorted_unique lt); [done..|].
  apply NoDup_Permutation; [by apply StronglySorted_lt_NoDup..|done].
Qed.

Lemma common_neighbors_comm g u v : common_neighbors g u v = common_neighbors g v u.
Proof.
  apply sorted_lt_ext; [apply common_neighbors_sorted..|]. apply common_neighbors_sym.
Qed.

(** X7. The common neighbours that the peeler walks through are the
    vertices adjacent to both end points, each once, in ascending order;
    the list is the same whichever end point comes first and whichever of
    the two neighbour lists is the shorter. *)
Theorem common_neighbors_swap (g : igraph_t) (u v : nat) :
  common_neighbors g u v = common_neighbors g v u ∧
  common_neighbors g u v =
    igraph_vector_int_intersect_sorted (igraph_adjlist g u) (igraph_adjlist g v) ∧
  StronglySorted lt (common_neighbors g u v) ∧
  ∀ w, w ∈ common_neighbors g u v ↔ w ∈ igraph_adjlist g u ∧ w ∈ igraph_adjlist g v.
Proof.
  split_and!.
  - apply common_neighbors_comm.
  - apply sorted_lt_ext;
      [apply common_neighbors_sorted|apply intersect_sorted_sorted, adjlist_sorted|].
    intros w. rewrite elem_of_common_neighbors.
    by rewrite elem_of_intersect_sorted by apply adjlist_sorted.
  - apply common_neighbors_sorted.
  - apply elem_of_common_neighbors.
Qed.


(** ** The highest k-truss of an edge *)

Lemma filter_length_sum {A} (P : A → Prop) `{∀ x, Decision (P x)} (l : list A) :
  length (filter P l) = sum_list_with (λ x, if decide (P x) then 1 else 0) l.
Proof.
  induction l as [|a l IH]; [done|]. rewrite filter_cons. cbn [sum_list_with].
  destruct (decide (P a)); simpl; rewrite IH; done.
Qed.

Lemma sum_list_with_ext {A} (f h : A → nat) (l : list A) :
  (∀ x, x ∈ l → f x = h x) → sum_list_with f l = sum_list_with h l.
Proof.
  induction l as [|a l IH]; intros Hfh; [done|]. simpl.
  f_equal; [apply Hfh; left|]. apply IH. intros x Hx. apply Hfh. by right.
Qed.

Lemma sum_list_with_one {A} (l : list A) : sum_list_with (λ _, 1) l = length l.
Proof. induction l as [|a l IH]; simpl; [done|]. by rewrite IH. Qed.

(** Counting the pairs of a relation by rows and by columns. *)
Lemma double_count {A B} (R : A → B → Prop) `{∀ a b, Decision (R a b)}
    (la : list A) (lb : list B) :
  sum_list_with (λ a, length (filter (R a) lb)) la =
  sum_list_with (λ b, length (filter (λ a, R a b) la)) lb.
Proof.
  induction la as [|a la IH]; simpl.
  - induction lb as [|b lb IHb]; simpl; [done|]. by rewrite <- IHb.
  - rewrite IH, filter_length_sum. clear IH.
    induction lb as [|b lb IHb]; simpl; [done|]. rewrite filter_cons.
    destruct (decide (R a b)); simpl; lia.
Qed.

Lemma filter_length_all {A} (P : A → Prop) `{∀ x, Decision (P x)} (l : list A) :
  (∀ x, x ∈ l → P x) → length (filter P l) = length l.
Proof.
  induction l as [|a l IH]; intros HP; [done|].
  rewrite filter_cons, decide_True by (apply HP; left). simpl.
  rewrite IH; [done|]. intros x Hx. apply HP. by right.
Qed.

Lemma filter_length_one {A} `{EqDecision A} (P : A → Prop) `{∀ x, Decision (P x)}
    (l : list A) (a : A) :
  NoDup l → a ∈ l → (∀ x, x ∈ l → P x ↔ x = a) → length (filter P l) = 1.
Proof.
  intros Hnd Ha HP.
  rewrite (filter_length_flip (λ _, False) P l a Hnd Ha); [| tauto | by apply HP |].
  - by rewrite filter_length_0 by tauto.
  - intros x Hx Hne. rewrite HP by done. tauto.
Qed.

(** Of the common neighbours of two vertices of a triangle, one makes up
    the triangle with them: its third vertex. *)
Lemma third_vertex_count g a b c u v :
  is_triangle g (a, b, c) → u ≠ v →
  length (filter (λ w, triangle_set (a, b, c) = triangle_set (u, v, w))
            (common_neighbors g u v)) =
  if decide ((u = a ∨ u = b ∨ u = c) ∧ (v = a ∨ v = b ∨ v = c)) then 1 else 0.
Proof.
  intros (Hab & Hac & Hbc & H1 & H2 & H3) Huv. simpl in * |-.
  pose proof H1 as H1'. pose proof H2 as H2'. pose proof H3 as H3'.
  rewrite get_eid_sym in H1', H2', H3'.
  assert (Hthird : ∀ w0, w0 ≠ u → w0 ≠ v →
            is_Some (igraph_get_eid g u w0) → is_Some (igraph_get_eid g v w0) →
            triangle_set (a, b, c) = triangle_set (u, v, w0) →
            length (filter (λ w, triangle_set (a, b, c) = triangle_set (u, v, w))
                      (common_neighbors g u v)) = 1).
  { intros w0 Hu Hv Hsu Hsv Hs.
    apply (filter_length_one _ _ w0); [apply common_neighbors_NoDup| |].
    - rewrite elem_of_common_neighbors, !elem_of_adjlist_eid. done.
    - intros w (Hwu & Hwv & _)%get_eid_common. split; [|by intros ->].
      rewrite Hs. unfold triangle_set. simpl. intros Hw.
      assert (w ∈ ({[u; v; w0]} : gset nat)) by (rewrite Hw; set_solver).
      set_solver. }
  case_decide as Hd.
  - destruct Hd as [[-> | [-> | ->]] [-> | [-> | ->]]]; try done;
      [apply (Hthird c)|apply (Hthird b)|apply (Hthird c)|
       apply (Hthird a)|apply (Hthird b)|apply (Hthird a)];
      try done; unfold triangle_set; simpl; set_solver.
  - apply filter_length_0. intros w _ Hs. apply Hd. unfold triangle_set in Hs. simpl in Hs.
    assert (u ∈ ({[a; b; c]} : gset nat)) by (rewrite Hs; set_solver).
    assert (v ∈ ({[a; b; c]} : gset nat)) by (rewrite Hs; set_solver).
    set_solver.
Qed.

(** On a complete listing the support of an edge is the number of common
    neighbours of its end points. *)
Lemma support_common_neighbors g ts support0 e :
  lists_triangles g ts →
  build_support g (flatten_triangles ts) = Some support0 →
  active g e →
  support0 !!! e = length (common_neighbors g (igraph_edge g e).1 (igraph_edge g e).2).
Proof.
  intros [Hts Hone] Hb Hact.
  destruct (build_support_Some g ts Hts) as (eid & Hs & Hcount).
  rewrite Hb in Hs. injection Hs as ->.
  assert (e < length g) as He by (eapply get_eid_lt, active_eid; done).
  rewrite compute_support_lookup by (by rewrite length_replicate).
  rewrite lookup_total_replicate_2, Hcount by done. simpl.
  pose proof Hact as [Huv _].
  set (u := (igraph_edge g e).1) in *. set (v := (igraph_edge g e).2) in *.
  trans (sum_list_with (λ t, length (filter (λ w, triangle_set t = triangle_set (u, v, w))
                                       (common_neighbors g u v))) ts).
  - rewrite filter_length_sum. apply sum_list_with_ext. intros [[a b] c] Ht.
    rewrite Forall_forall in Hts. pose proof (Hts _ Ht) as Htri.
    rewrite (third_vertex_count g a b c u v Htri Huv).
    pose proof (triangle_edge_endpoints g e a b c Hact Htri) as Hiff. fold u v in Hiff.
    repeat case_decide; try done; tauto.
  - rewrite <- (double_count (λ w t, triangle_set t = triangle_set (u, v, w))).
    trans (sum_list_with (λ _, 1) (common_neighbors g u v)).
    + apply sum_list_with_ext. intros w Hw. apply (Hone (u, v, w)).
      destruct (get_eid_common _ _ _ _ Hw) as (Hwu & Hwv & Hsu & Hsv).
      split_and!; simpl; try done; try congruence.
      exists e. by apply active_eid.
    + apply sum_list_with_one.
Qed.

(** On a complete listing every common neighbour of the end points of an
    edge closes a triangle that counts. *)
Lemma triangles_live_all g ts support0 e :
  lists_triangles g ts →
  build_support g (flatten_triangles ts) = Some support0 →
  active g e →
  triangles_live g support0 e = support0 !!! e.
Proof.
  intros Hl Hb Hact. rewrite (support_common_neighbors g ts support0 e) by done.
  unfold triangles_live, wedge_count. apply filter_length_all. intros w Hw.
  pose proof Hact as [Huv Heid].
  set (u := (igraph_edge g e).1) in *. set (v := (igraph_edge g e).2) in *.
  destruct (get_eid_common _ _ _ _ Hw) as (Hwu & Hwv & _).
  destruct (eid_of_common _ _ _ _ Hw) as [E1 E2].
  assert (Hpos : ∀ x y p, x ≠ y → igraph_get_eid g x y = Some p →
                   common_neighbors g x y ≠ [] → 0 < support0 !!! p).
  { intros x y p Hxy Hp Hne.
    rewrite (support_common_neighbors g ts support0 p Hl Hb) by by eapply get_eid_active.
    destruct (get_eid_edge _ _ _ _ Hp) as [-> | ->]; simpl;
      [|rewrite common_neighbors_comm];
      destruct (common_neighbors g x y); simpl; (done || lia). }
  split.
  - apply (Hpos u w); [done..|]. intros Hn.
    assert (v ∈ common_neighbors g u w) as Hv by (apply opposite_common; eauto).
    rewrite Hn in Hv. by apply elem_of_nil in Hv.
  - apply (Hpos v w); [done..|]. intros Hn.
    assert (u ∈ common_neighbors g v w) as Hv.
    { apply opposite_common; [done|rewrite get_eid_sym; eauto|].
      by apply common_neighbors_sym. }
    rewrite Hn in Hv. by apply elem_of_nil in Hv.
Qed.

Lemma k_truss_mono g k k' X : k ≤ k' → k_truss g k' X → k_truss g k X.
Proof. intros Hk HX e He. destruct (HX e He). split; [done|lia]. Qed.

Lemma triangles_in_le g X e :
  triangles_in g X e ≤ length (common_neighbors g (igraph_edge g e).1 (igraph_edge g e).2).
Proof. apply length_filter. Qed.

Lemma triangles_in_mono g (X Y : gset nat) e :
  X ⊆ Y → triangles_in g X e ≤ triangles_in g Y e.
Proof.
  intros HXY. apply filter_length_le. intros w _ [H1 H2]. split; by apply HXY.
Qed.

(** A set that is closed at level [k] is a (k+2)-truss. *)
Lemma closed_k_truss g ts support0 k X :
  lists_triangles g ts →
  build_support g (flatten_triangles ts) = Some support0 →
  truss_closed g support0 k X → k_truss g (k + 2) X.
Proof.
  intros Hl Hb HX e He. destruct (HX e He) as [Hpos Hk].
  destruct (build_support_active g ts support0 (proj1 Hl) Hb) as [Hlen Hact].
  split.
  - unfold igraph_ecount. rewrite <- Hlen. by apply live_lt.
  - rewrite (triangles_live_all g ts support0 e) in Hk by (try done; by apply Hact). lia.
Qed.

(** In a simple graph a (k+2)-truss with [k] at least 1 is closed at
    level [k]. *)
Lemma k_truss_closed g ts support0 k X :
  simple_graph g → lists_triangles g ts →
  build_support g (flatten_triangles ts) = Some support0 →
  1 ≤ k → k_truss g (k + 2) X → truss_closed g support0 k X.
Proof.
  intros Hsimple Hl Hb Hk HX e He. destruct (HX e He) as [Hlt Hin].
  pose proof (Hsimple e Hlt) as Hact.
  pose proof (triangles_in_le g X e) as Hle.
  rewrite <- (support_common_neighbors g ts support0 e) in Hle by done.
  rewrite (triangles_live_all g ts support0 e) by done. split; lia.
Qed.

(** What [igraph_trussness] returns for an edge of a simple graph is the
    largest [k] for which the edge is in a k-truss. *)
Lemma highest_truss tb g ts trussness0 :
  simple_graph g → lists_triangles g ts →
  ∃ res, igraph_trussness tb g (flatten_triangles ts) trussness0 = Some res ∧
         length res = igraph_ecount g ∧
         ∀ e, e < igraph_ecount g →
              (∃ X, k_truss g (res !!! e) X ∧ e ∈ X) ∧
              (∀ k X, k_truss g k X → e ∈ X → k ≤ res !!! e).
Proof.
  intros Hsimple Hl. pose proof Hl as [Hts Hone].
  destruct (build_support_Some g ts Hts) as (eid & Hb & _).
  set (support0 := igraph_truss_i_compute_support _ _) in *.
  destruct (build_support_active g ts support0 Hts Hb) as [Hlen Hact].
  unfold igraph_trussness. rewrite Hb. simpl. unfold igraph_ecount.
  destruct (decide (support0 = [])) as [Hnil|Hne].
  - rewrite Hnil in *. simpl in Hlen. eexists; split; [done|].
    split; [by rewrite <- Hlen|]. intros e He. lia.
  - destruct (peel_result_canonical g support0 Hlen Hact tb trussness0 Hne)
      as (res & -> & Hlres & Hres).
    exists res. split; [done|]. split; [lia|]. intros e He.
    destruct (Hres e ltac:(lia)) as [Hz Hp].
    pose proof (Hsimple e He) as Hae.
    destruct (decide (support0 !!! e = 0)) as [Hz'|Hnz].
    + rewrite (Hz Hz'). split.
      * exists {[e]}. split; [|set_solver]. intros e' ->%elem_of_singleton.
        split; [done|lia].
      * intros k X HX HeX. destruct (HX e HeX) as [_ Hk].
        pose proof (triangles_in_le g X e) as Hle.
        rewrite <- (support_common_neighbors g ts support0 e) in Hle by done. lia.
    + destruct Hp as (k0 & -> & [[X [HX HeX]] Hmax]); [lia|]. split.
      * exists X. split; [|done]. by eapply closed_k_truss.
      * intros k Y HY HeY. destruct (decide (k ≤ k0 + 2)); [done|]. exfalso.
        apply Hmax. exists Y. split; [|done].
        eapply k_truss_closed; try done; [lia|]. eapply k_truss_mono; [|done]. lia.
Qed.

Lemma kite_graph_simple : simple_graph kite_graph.
Proof.
  intros e He. unfold igraph_ecount in He. simpl in He.
  destruct e as [|[|[|[|[|e]]]]]; [..|lia]; (split; [simpl; lia|reflexivity]).
Qed.

Lemma kite_graph_triangles : lists_triangles kite_graph [(0, 1, 2); (1, 2, 3)].
Proof.
  split.
  - apply Forall_cons_2; [|apply Forall_cons_2; [|apply Forall_nil_2]];
      (split_and!; simpl; [lia|lia|lia|eexists; vm_compute; reflexivity..]).
  - intros [[a b] c] (Hab & Hac & Hbc & H1 & H2 & H3). simpl in * |-.
    apply get_eid_is_Some in H1 as (x1 & Hx1 & Hj1).
    apply get_eid_is_Some in H2 as (x2 & Hx2 & Hj2).
    unfold kite_graph in Hx1, Hx2.
    repeat (apply elem_of_cons in Hx1 as [->|Hx1]); [..|by apply elem_of_nil in Hx1];
      (destruct Hj1 as [Hj1|Hj1]; simplify_eq);
      (repeat (apply elem_of_cons in Hx2 as [->|Hx2]); [..|by apply elem_of_nil in Hx2];
       (destruct Hj2 as [Hj2|Hj2]; simplify_eq));
      try (by destruct H3 as [? H3]; vm_compute in H3);
      vm_compute; reflexivity.
Qed.

(** X8. On a simple graph whose triangles are all listed, each once, what
    [igraph_trussness] returns for an edge is the highest [k] such that the
    edge occurs in a k-truss: the edge is in a subgraph in which every edge
    occurs in at least [k - 2] triangles of the subgraph, and in no such
    subgraph for a larger [k]. *)
Theorem trussness_highest_truss (tb : tie_break) (g : igraph_t)
    (ts : list (nat * nat * nat)) (trussness0 : list nat) :
  simple_graph g → lists_triangles g ts →
  ∃ res, igraph_trussness tb g (flatten_triangles ts) trussness0 = Some res ∧
         length res = igraph_ecount g ∧
         ∀ e, e < igraph_ecount g →
              (∃ X, k_truss g (res !!! e) X ∧ e ∈ X) ∧
              (∀ k X, k_truss g k X → e ∈ X → k ≤ res !!! e).
Proof. apply highest_truss. Qed.

Lemma trussness_highest_truss_witness :
  ∃ res, igraph_trussness least_first kite_graph
           (flatten_triangles [(0, 1, 2); (1, 2, 3)]) [] = Some res ∧
         length res = igraph_ecount kite_graph ∧
         ∀ e, e < igraph_ecount kite_graph →
              (∃ X, k_truss kite_graph (res !!! e) X ∧ e ∈ X) ∧
              (∀ k X, k_truss kite_graph k X → e ∈ X → k ≤ res !!! e).
Proof.
  apply (trussness_highest_truss least_first kite_graph [(0, 1, 2); (1, 2, 3)] []);
    [apply kite_graph_simple|apply kite_graph_triangles].
Defined.

(** X9. On a simple graph whose triangles are all listed, each once, the
    edges whose trussness is at least [k] make up a k-truss, and every
    k-truss of the graph lies within it: keeping the edge ids with a value
    of at least [k] gives the largest k-truss. *)
Theorem trussness_threshold (tb : tie_break) (g : igraph_t)
    (ts : list (nat * nat * nat)) (trussness0 : list nat) (k : nat) :
  simple_graph g → lists_triangles g ts →
  ∃ res, igraph_trussness tb g (flatten_triangles ts) trussness0 = Some res ∧
         k_truss g k (edge_set (λ e, k ≤ res !!! e) (igraph_ecount g)) ∧
         ∀ X, k_truss g k X → X ⊆ edge_set (λ e, k ≤ res !!! e) (igraph_ecount g).
Proof.
  intros Hsimple Hl.
  destruct (highest_truss tb g ts trussness0 Hsimple Hl) as (res & Hres & _ & Hhigh).
  exists res. split; [done|].
  assert (Hsub : ∀ k' X, k_truss g k' X →
                   X ⊆ edge_set (λ e, k' ≤ res !!! e) (igraph_ecount g)).
  { intros k' X HX e He. destruct (HX e He) as [Hlt _].
    apply elem_of_edge_set. split; [done|]. destruct (Hhigh e Hlt) as [_ Hmax]. eauto. }
  split; [|apply Hsub].
  intros e [Hlt Hk]%elem_of_edge_set. split; [done|].
  destruct (Hhigh e Hlt) as [(Y & HY & HeY) _].
  destruct (HY e HeY) as [_ Hin].
  assert (Y ⊆ edge_set (λ e, k ≤ res !!! e) (igraph_ecount g)) as HYk.
  { intros e' He'. apply Hsub in HY. apply HY in He'.
    apply elem_of_edge_set in He' as [? ?]. apply elem_of_edge_set. split; [done|lia]. }
  pose proof (triangles_in_mono g _ _ e HYk). lia.
Qed.

Lemma trussness_threshold_witness :
  ∃ res, igraph_trussness least_first kite_graph
           (flatten_triangles [(0, 1, 2); (1, 2, 3)]) [] = Some res ∧
         k_truss kite_graph 3 (edge_set (λ e, 3 ≤ res !!! e) (igraph_ecount kite_graph)) ∧
         ∀ X, k_truss kite_graph 3 X →
              X ⊆ edge_set (λ e, 3 ≤ res !!! e) (igraph_ecount kite_graph).
Proof.
  apply (trussness_threshold least_first kite_graph [(0, 1, 2); (1, 2, 3)] [] 3);
    [apply kite_graph_simple|apply kite_graph_triangles].
Defined.

(** ** Every index is in range *)

(** X10. At every point of a run the next move indexes its vectors in range:
    the level is a bucket index and the popped edge an edge id; both
    lookups of [visit_neighbor] succeed and return edge ids; every support
    is a bucket index. *)
Theorem peeler_indices_in_range (tb : tie_break) (g : igraph_t)
    (support0 trussness0 : list nat) (c : peel_config) :
  length support0 = length g →
  peel_reachable tb g support0 trussness0 c →
  length (support c.2) = length g ∧ length (completed c.2) = length g ∧
  length (trussness c.2) = length g ∧
  (∀ e, support c.2 !!! e < length (vec c.2)) ∧
  match c.1 with
  | AtWhile level =>
      level ≤ igraph_vector_int_max support0 →
      level < length (vec c.2) ∧
      (vec c.2 !!! level ≠ ∅ → set_begin tb (vec c.2 !!! level) < length g)
  | AtFor level seed f t (n :: ns) =>
      ∃ e1 e2, igraph_get_eid g f n = Some e1 ∧ igraph_get_eid g t n = Some e2 ∧
               e1 < length g ∧ e2 < length g
  | AtFor level seed f t [] => seed < length g
  | AtEnd => True
  end.
Proof. apply peel_access_in_range. Qed.

Lemma peeler_indices_in_range_witness :
  length (support kite_config.2) = length kite_graph ∧
  ∃ e1 e2, igraph_get_eid kite_graph 0 2 = Some e1 ∧
           igraph_get_eid kite_graph 1 2 = Some e2 ∧
           e1 < length kite_graph ∧ e2 < length kite_graph.
Proof.
  assert (H : peel_reachable least_first kite_graph [1; 1; 2; 1; 1] [] kite_config)
    by (exists 1; reflexivity).
  destruct (peeler_indices_in_range least_first kite_graph [1; 1; 2; 1; 1] [] kite_config
              eq_refl H) as (A & _ & _ & _ & B).
  split; [exact A|exact B].
Defined.

(** ** The state on return *)

(** X11. On exit of the loop over the levels every edge is completed, the
    support vector that was passed in holds the trussness less 2 of every
    edge, and every bucket above bucket 0 is empty. *)
Theorem peel_exit_state (tb : tie_break) (g : igraph_t)
    (support0 trussness0 : list nat) (st : peel_state) :
  peel_reachable tb g support0 trussness0 (AtEnd, st) →
  (∀ e, e < length support0 →
        completed st !!! e = true ∧ trussness st !!! e = support st !!! e + 2) ∧
  (∀ k, 1 ≤ k → vec st !!! k = ∅).
Proof.
  intros Hinv%peel_reachable_inv. split.
  - intros e He. pose proof (peel_end_completed _ _ _ _ Hinv He) as Hc.
    destruct (inv_completed _ _ _ Hinv e He Hc) as (_ & _ & Ht & _). done.
  - intros k Hk. apply leibniz_equiv, elem_of_equiv_empty. intros e He.
    pose proof (inv_bucket_range _ _ _ Hinv _ _ He) as Hlt.
    pose proof (peel_end_completed _ _ _ _ Hinv Hlt) as Hc.
    destruct (inv_completed _ _ _ Hinv e Hlt Hc) as (_ & Hv & _).
    apply Hv in He as [-> _]. lia.
Qed.

Lemma peel_exit_state_witness :
  (∀ e, e < 5 → completed kite_final !!! e = true ∧
                trussness kite_final !!! e = support kite_final !!! e + 2) ∧
  (∀ k, 1 ≤ k → vec kite_final !!! k = ∅).
Proof.
  apply (peel_exit_state least_first kite_graph [1; 1; 2; 1; 1] [] kite_final).
  exists (peel_fuel 5 2). vm_compute. reflexivity.
Defined.

(** ** A graph without triangles *)

(** X12. When no triangle is listed, [igraph_trussness] returns 2 for every
    edge of the graph. *)
Theorem trussness_no_triangles (tb : tie_break) (g : igraph_t) (trussness0 : list nat) :
  igraph_trussness tb g (flatten_triangles []) trussness0 =
  Some (replicate (igraph_ecount g) 2).
Proof.
  unfold igraph_trussness, build_support, igraph_ecount. simpl.
  change (igraph_truss_i_compute_support [] ?s) with s.
  set (support0 := replicate (length g) 0).
  assert (Hlen : length support0 = length g) by apply length_replicate.
  destruct (decide (support0 = [])) as [Hnil|Hne].
  - rewrite Hnil in *. simpl in Hlen. by rewrite <- Hlen.
  - destruct (igraph_i_trussness_returns tb g support0 trussness0) as (st & Hr & ->);
      [done|lia|].
    apply peel_reachable_inv in Hr as Hinv. f_equal.
    apply list_eq_same_length with (length support0);
      [rewrite length_replicate; lia|apply (inv_len_trussness _ _ _ Hinv)|].
    intros e x y He. rewrite !list_lookup_alt. intros [_ <-] [_ <-].
    rewrite lookup_total_replicate_2 by lia.
    pose proof (peel_end_completed _ _ _ _ Hinv He) as Hc.
    destruct (inv_completed _ _ _ Hinv e He Hc) as (_ & _ & Ht & _).
    pose proof (inv_support_le _ _ _ Hinv e) as Hle. simpl in *.
    unfold support0 in Hle. rewrite lookup_total_replicate_2 in Hle by lia. lia.
Qed.


(** ** The order in which the edges are completed *)

Lemma sorted_ge_const (l : list nat) v : Forall (λ x, x = v) l → StronglySorted ge l.
Proof.
  induction 1 as [|x l -> Hl IH]; constructor; [done|].
  eapply Forall_impl; [exact Hl|]. intros y ->. unfold ge. lia.
Qed.

(** X13. Along a run the values stored into [trussness] never go down: an
    edge is completed with a trussness that is at least that of every edge
    completed before it, and at most the current level plus 2. *)
Theorem peel_completion_order (tb : tie_break) (g : igraph_t)
    (support0 trussness0 : list nat) (c : peel_config) :
  peel_reachable tb g support0 trussness0 c →
  StronglySorted ge (snd <$> stores c.2) ∧
  Forall (λ p, 2 ≤ p.2 ≤ pc_level (igraph_vector_int_max support0) c.1 + 2) (stores c.2).
Proof.
  intros [k ->]. unfold peel_run, igraph_vector_int_max.
  induction k as [|k [IH1 IH2]].
  - simpl. unfold peel_init, complete_level0; cbn [snd fst pc_level].
    rewrite record_edges_stores. simpl. rewrite app_nil_r. split.
    + apply (sorted_ge_const _ 2). rewrite <- fmap_reverse, <- list_fmap_compose.
      apply Forall_fmap, Forall_true. done.
    + apply Forall_reverse, Forall_fmap, Forall_true. simpl. lia.
  - assert (Hinv : peel_inv g support0
                     (Nat.iter k (peel_step tb g (max_list support0))
                        (peel_init support0 trussness0)))
      by (apply peel_reachable_inv with tb trussness0; by exists k).
    pose proof (inv_level _ _ _ Hinv) as Hlev.
    rewrite Nat.iter_succ.
    destruct (Nat.iter k (peel_step tb g (max_list support0))
                (peel_init support0 trussness0)) as [[level|level seed f t [|n ns]|] st];
      simpl in *.
    + unfold peel_step; simpl. repeat case_decide; simpl; (split; [done|]);
        eapply Forall_impl; try done; simpl; intros p Hp; lia.
    + split.
      * constructor; [done|]. apply Forall_fmap. eapply Forall_impl; [done|].
        simpl. intros p Hp. lia.
      * apply Forall_cons_2; [simpl; lia|done].
    + by rewrite visit_neighbor_stores.
    + done.
Qed.

Lemma peel_completion_order_witness :
  StronglySorted ge (snd <$> stores kite_final) ∧
  Forall (λ p, 2 ≤ p.2 ≤ pc_level 2 AtEnd + 2) (stores kite_final).
Proof.
  apply (peel_completion_order least_first kite_graph [1; 1; 2; 1; 1] [] (AtEnd, kite_final)).
  exists (peel_fuel 5 2). vm_compute. reflexivity.
Defined.


(** ** The edges that are in no triangle *)

(** X14. On a simple graph whose triangles are all listed, each once,
    [igraph_trussness] returns 2 for an edge exactly when no vertex makes
    up a triangle with the two end points of the edge, and at least 3 for
    every other edge. *)
Theorem trussness_two_iff_no_triangle (tb : tie_break) (g : igraph_t)
    (ts : list (nat * nat * nat)) (trussness0 : list nat) :
  simple_graph g → lists_triangles g ts →
  ∃ res, igraph_trussness tb g (flatten_triangles ts) trussness0 = Some res ∧
         ∀ e, e < igraph_ecount g →
              (res !!! e = 2 ↔
               ¬ ∃ w, is_triangle g ((igraph_edge g e).1, (igraph_edge g e).2, w)) ∧
              (res !!! e ≠ 2 → 3 ≤ res !!! e).
Proof.
  intros Hsimple Hl. pose proof Hl as [Hts Hone].
  destruct (build_support_Some g ts Hts) as (eid & Hb & _).
  set (support0 := igraph_truss_i_compute_support _ _) in *.
  pose proof (build_support_length _ _ _ Hb) as Hlen.
  unfold igraph_trussness. rewrite Hb. simpl. unfold igraph_ecount in *.
  destruct (decide (support0 = [])) as [Hnil|Hne].
  { rewrite Hnil in *. simpl in Hlen. eexists; split; [done|]. intros e He. lia. }
  destruct (igraph_i_trussness_returns tb g support0 trussness0) as (st & Hr & ->);
    [done|lia|].
  apply peel_reachable_inv in Hr as Hinv.
  eexists; split; [done|]. intros e He.
  pose proof (Hsimple e He) as Hact. rewrite <- Hlen in He.
  pose proof (peel_end_completed _ _ _ _ Hinv He) as Hc.
  destruct (inv_completed _ _ _ Hinv e He Hc) as (_ & _ & Ht & _).
  pose proof (inv_support_le _ _ _ Hinv e) as Hle.
  pose proof (inv_support_pos _ _ _ Hinv e) as Hpos.
  pose proof (support_common_neighbors g ts support0 e Hl Hb Hact) as Hcn.
  simpl in *. rewrite Ht. split; [|lia].
  pose proof Hact as [Huv Heid].
  set (u := (igraph_edge g e).1) in *. set (v := (igraph_edge g e).2) in *.
  split.
  - intros Hz [w (_ & Huw & Hvw & _ & Hsu & Hsv)]. simpl in *.
    assert (w ∈ common_neighbors g u v) as Hw.
    { rewrite elem_of_common_neighbors, !elem_of_adjlist_eid. split_and!; by try congruence. }
    destruct (common_neighbors g u v); [by apply elem_of_nil in Hw|]. simpl in Hcn. lia.
  - intros Hno. destruct (common_neighbors g u v) as [|w l] eqn:E; [simpl in Hcn; lia|].
    exfalso. apply Hno. exists w.
    assert (w ∈ common_neighbors g u v) as Hw by (rewrite E; left).
    destruct (get_eid_common _ _ _ _ Hw) as (Hwu & Hwv & Hsu & Hsv).
    split_and!; simpl; first [done|congruence|by exists e].
Qed.

Lemma trussness_two_iff_no_triangle_witness :
  ∃ res, igraph_trussness least_first kite_graph
           (flatten_triangles [(0, 1, 2); (1, 2, 3)]) [] = Some res ∧
         ∀ e, e < igraph_ecount kite_graph →
              (res !!! e = 2 ↔
               ¬ ∃ w, is_triangle kite_graph
                        ((igraph_edge kite_graph e).1, (igraph_edge kite_graph e).2, w)) ∧
              (res !!! e ≠ 2 → 3 ≤ res !!! e).
Proof.
  apply (trussness_two_iff_no_triangle least_first kite_graph [(0, 1, 2); (1, 2, 3)] []);
    [apply kite_graph_simple|apply kite_graph_triangles].
Defined.
